(** * Token registry of the cloud-services plugin

    A shallow embedding of
    [packages/ckeditor5-cloud-services/src/cloudservices.ts]: the
    [CloudServices] context plugin, its map from token URLs to token
    objects, and the collaborators it calls ([CloudServicesCore.createToken]
    and the [Token] class).

    JavaScript objects live on a heap and are named by their reference; an
    [async] method is split at its [await] into the part that runs when it is
    called and the part that runs when the awaited promise settles. *)

From stdpp Require Import base decidable option list strings.

(** ** Endpoint identities

    [export type TokenUrl = string | ( () => Promise<string> )].  A callback
    is a function object: the only thing the plugin does with it is to use it
    as a [Map] key and to hand it to [createToken], so it is represented by
    its reference. *)
Inductive TokenUrl : Type :=
| UrlString (url : string)
| UrlCallback (ref : nat).

#[global] Instance TokenUrl_eq_dec : EqDecision TokenUrl.
Proof. solve_decision. Defined.

(** JavaScript truthiness of a [TokenUrl]: the empty string is falsy, every
    other string and every function is truthy. *)
Definition truthy (u : TokenUrl) : bool :=
  match u with
  | UrlString url => negb (String.eqb url "")
  | UrlCallback _ => true
  end.

(** ** Errors and completions *)

Inductive Error : Type :=
| CKEditorError (name : string)
| InitializationFailure.

#[global] Instance Error_eq_dec : EqDecision Error.
Proof. solve_decision. Defined.

(** How a synchronous call completes. *)
Inductive Completion (A : Type) : Type :=
| Returned (a : A)
| Threw (e : Error).
Arguments Returned {A} a.
Arguments Threw {A} e.

(** How a promise settles. *)
Inductive Settlement (A : Type) : Type :=
| Resolved (a : A)
| Rejected (e : Error).
Arguments Resolved {A} a.
Arguments Rejected {A} e.

(** [return e] inside an [async] function: the promise resolves with the value
    of [e], or rejects with what [e] throws. *)
Definition async_return {A : Type} (c : Completion A) : Settlement A :=
  match c with
  | Returned a => Resolved a
  | Threw e => Rejected e
  end.

(** What the transport (for a URL) or the provider function (for a callback)
    delivers when its promise settles. *)
Inductive FetchOutcome : Type :=
| FetchOk (body : string)
| FetchFail.

(** ** The JavaScript [Map]

    Keys are compared with SameValueZero, which on [TokenUrl] is value
    equality for strings and reference equality for functions.  Iteration
    ([values()]) follows insertion order, and [set] on a key that is present
    replaces the value in place. *)
Module JSMap.
Section ops.
Context {K V : Type} `{EqDecision K}.

Definition t : Type := list (K * V).

Definition empty : t := [].

Fixpoint get (m : t) (k : K) : option V :=
  match m with
  | [] => None
  | (k', v) :: m' => if decide (k' = k) then Some v else get m' k
  end.

Definition has (m : t) (k : K) : bool :=
  match get m k with
  | Some _ => true
  | None => false
  end.

Fixpoint set (m : t) (k : K) (v : V) : t :=
  match m with
  | [] => [(k, v)]
  | (k', v') :: m' =>
      if decide (k' = k) then (k, v) :: m' else (k', v') :: set m' k v
  end.

Definition values (m : t) : list V := map snd m.
End ops.
Arguments t : clear implicits.
End JSMap.

(** ** Token *)
Module Token.

Inductive State : Type := CREATED | INITIALIZING | VALID | DESTROYED.

#[global] Instance State_eq_dec : EqDecision State.
Proof. solve_decision. Defined.

(** Modelled from the spec: the [Token] class ([token/token.ts]) is not
    among the sources; its attributes are those of the data model:
    the immutable endpoint identity, the current credential, the state,
    and the transient REFRESHING sub-state of VALID. *)
Record t : Type := mk {
  endpointIdentity : TokenUrl;
  credential : option string;
  state : State;
  refreshing : bool
}.

(** Modelled from the spec: [createToken] of [CloudServicesCore], missing
    from the sources, makes a Token bound to the identity, in CREATED, with
    no value yet. *)
Definition create (u : TokenUrl) : t := mk u None CREATED false.

(** Modelled from the spec: the synchronous part of [Token.init()],
    missing from the sources.  Valid only from CREATED, where it moves to
    INITIALIZING and starts the request; from any other state there is no
    transition. *)
Definition init (tk : t) : t :=
  match state tk with
  | CREATED => mk (endpointIdentity tk) (credential tk) INITIALIZING (refreshing tk)
  | _ => tk
  end.

(** Does [init()] start a request from this state? *)
Definition init_requests (tk : t) : bool :=
  match state tk with
  | CREATED => true
  | _ => false
  end.

(** Modelled from the spec: the settlement of the request started by
    [Token.init()].  On success the Token becomes VALID with the delivered
    value; on failure it is left as it is, unusable.  A Token destroyed in
    the meantime discards the result. *)
Definition init_settled (o : FetchOutcome) (tk : t) : t :=
  match state tk, o with
  | INITIALIZING, FetchOk v => mk (endpointIdentity tk) (Some v) VALID false
  | _, _ => tk
  end.

(** Modelled from the spec: the [value] getter of [Token], missing from
    the sources: the last successfully resolved credential, absent if the
    Token was never initialized or is destroyed. *)
Definition value (tk : t) : option string :=
  match state tk with
  | VALID => credential tk
  | _ => None
  end.

(** Modelled from the spec: [Token.destroy()], missing from the sources:
    cancels any pending or scheduled refresh, moves to DESTROYED from any
    state and releases the credential. *)
Definition destroy (tk : t) : t :=
  mk (endpointIdentity tk) None DESTROYED false.

(** Modelled from the spec: the start of the internal refresh cycle of
    [Token], missing from the sources.  It runs only while VALID, and a
    renewal already in flight is not restarted by a second trigger. *)
Definition refresh_trigger (tk : t) : t :=
  match state tk with
  | VALID => mk (endpointIdentity tk) (credential tk) VALID true
  | _ => tk
  end.

(** Modelled from the spec: the settlement of a renewal request of
    [Token], missing from the sources.  The result is the Token and the
    errors surfaced to its holders.  A success replaces the value in one
    step; a failure is swallowed, the last value is kept; a Token destroyed
    in the meantime discards the result. *)
Definition refresh_settled (o : FetchOutcome) (tk : t) : t * list Error :=
  match state tk, refreshing tk, o with
  | VALID, true, FetchOk v => (mk (endpointIdentity tk) (Some v) VALID false, [])
  | VALID, true, FetchFail => (mk (endpointIdentity tk) (credential tk) VALID false, [])
  | _, _, _ => (tk, [])
  end.

(** One background refresh attempt: the trigger, then the settlement. *)
Definition refresh_attempt (o : FetchOutcome) (tk : t) : t * list Error :=
  refresh_settled o (refresh_trigger tk).

End Token.

(** A reference to a [Token] object on the heap ([InitializedToken] in the
    plugin's types). *)
Abbreviation TokenRef := nat (only parsing).

(** ** The plugin *)
Module CloudServices.

(** The fields of a [CloudServices] instance. *)
Record t : Type := mk {
  tokenUrl : option TokenUrl;
  uploadUrl : option string;
  webSocketUrl : option string;
  bundleVersion : option string;
  token : option TokenRef;
  _tokens : JSMap.t TokenUrl TokenRef
}.

(** A freshly constructed instance: the configuration fields are
    undefined, [token = null], [_tokens = new Map()]. *)
Definition new : t := mk None None None None None JSMap.empty.

(** One [[key, value]] pair of [Object.entries( options )]; the value may
    be [undefined]. *)
Inductive ConfigEntry : Type :=
| CfgTokenUrl (v : option TokenUrl)
| CfgUploadUrl (v : option string)
| CfgWebSocketUrl (v : option string)
| CfgBundleVersion (v : option string).

(** [CloudServicesConfig] as the list of its own enumerable entries. *)
Definition CloudServicesConfig : Type := list ConfigEntry.

(** [( this as CloudServicesConfig )[ key ] = value] *)
Definition assign (p : t) (e : ConfigEntry) : t :=
  match e with
  | CfgTokenUrl v =>
      mk v (uploadUrl p) (webSocketUrl p) (bundleVersion p) (token p) (_tokens p)
  | CfgUploadUrl v =>
      mk (tokenUrl p) v (webSocketUrl p) (bundleVersion p) (token p) (_tokens p)
  | CfgWebSocketUrl v =>
      mk (tokenUrl p) (uploadUrl p) v (bundleVersion p) (token p) (_tokens p)
  | CfgBundleVersion v =>
      mk (tokenUrl p) (uploadUrl p) (webSocketUrl p) v (token p) (_tokens p)
  end.

Definition set_token (p : t) (tok : option TokenRef) : t :=
  mk (tokenUrl p) (uploadUrl p) (webSocketUrl p) (bundleVersion p) tok (_tokens p).

Definition set_tokens (p : t) (m : JSMap.t TokenUrl TokenRef) : t :=
  mk (tokenUrl p) (uploadUrl p) (webSocketUrl p) (bundleVersion p) (token p) m.

End CloudServices.

(** ** The world: the plugin instance, the heap of Token objects, and the log
    of requests issued to the transport or to provider functions (oldest
    first). *)
Record World : Type := mkWorld {
  plugin : CloudServices.t;
  heap : list Token.t;
  requests : list TokenUrl
}.

Definition with_plugin (w : World) (p : CloudServices.t) : World :=
  mkWorld p (heap w) (requests w).

Definition initial : World := mkWorld CloudServices.new [] [].

(** [CloudServicesCore.createToken( tokenUrl )]: a new Token object; its
    reference is the next free heap address. *)
Definition createToken (w : World) (u : TokenUrl) : World * TokenRef :=
  (mkWorld (plugin w) (heap w ++ [Token.create u]) (requests w), length (heap w)).

(** [token.init()] up to the point where it returns its pending promise: the
    Token starts initializing and its request is issued. *)
Definition Token_init (w : World) (r : TokenRef) : World :=
  match heap w !! r with
  | Some tk =>
      mkWorld (plugin w) (<[r := Token.init tk]> (heap w))
        (if Token.init_requests tk
         then requests w ++ [Token.endpointIdentity tk]
         else requests w)
  | None => w
  end.

(** The promise returned by [token.init()] settles: it resolves with the
    token itself when the request succeeded and rejects when it failed. *)
Definition Token_init_settle (w : World) (r : TokenRef) (o : FetchOutcome)
  : World * Settlement TokenRef :=
  (mkWorld (plugin w) (alter (Token.init_settled o) r (heap w)) (requests w),
   match o with
   | FetchOk _ => Resolved r
   | FetchFail => Rejected InitializationFailure
   end).

(** [token.destroy()] on the object behind a reference. *)
Definition Token_destroy (h : list Token.t) (r : TokenRef) : list Token.t :=
  alter Token.destroy r h.

(** ** The methods of the plugin *)

(** An [async] method that has run up to its first suspension: it has either
    settled already, or it is suspended at
    [await ...createToken( tokenUrl ).init()] on the token [tok]. *)
Inductive Async (A : Type) : Type :=
| Settled (s : Settlement A)
| Awaiting (tok : TokenRef).
Arguments Settled {A} s.
Arguments Awaiting {A} tok.

(** [getTokenFor( tokenUrl )].  A token is an object, hence truthy: the
    [!token] test fails exactly when the key is missing from the map. *)
Definition getTokenFor (w : World) (u : TokenUrl) : World * Completion TokenRef :=
  match JSMap.get (CloudServices._tokens (plugin w)) u with
  | None => (w, Threw (CKEditorError "cloudservices-token-not-registered"))
  | Some tok => (w, Returned tok)
  end.

(** [registerTokenUrl( tokenUrl )] from the call to its first suspension. *)
Definition registerTokenUrl_start (w : World) (u : TokenUrl)
  : World * Async TokenRef :=
  if JSMap.has (CloudServices._tokens (plugin w)) u then
    let '(w1, c) := getTokenFor w u in
    (w1, Settled (async_return c))
  else
    let '(w1, tok) := createToken w u in
    (Token_init w1 tok, Awaiting tok).

(** [registerTokenUrl( tokenUrl )] from the settlement of the awaited
    [init()] promise to the end: [tokenUrl] is the method's parameter and
    [awaited] the token whose promise was awaited. *)
Definition registerTokenUrl_resume (w : World) (u : TokenUrl)
    (awaited : TokenRef) (o : FetchOutcome) : World * Settlement TokenRef :=
  match Token_init_settle w awaited o with
  | (w1, Resolved tok) =>
      (with_plugin w1
         (CloudServices.set_tokens (plugin w1)
            (JSMap.set (CloudServices._tokens (plugin w1)) u tok)),
       Resolved tok)
  | (w1, Rejected e) => (w1, Rejected e)
  end.

(** [await registerTokenUrl( tokenUrl )] with nothing else running in
    between: [o] is what the transport or provider delivers if it is asked. *)
Definition registerTokenUrl (w : World) (u : TokenUrl) (o : FetchOutcome)
  : World * Settlement TokenRef :=
  match registerTokenUrl_start w u with
  | (w1, Settled s) => (w1, s)
  | (w1, Awaiting tok) => registerTokenUrl_resume w1 u tok o
  end.

(** [config.get( 'cloudServices' ) || {}], then the loop that copies every
    entry onto the instance. *)
Definition configure (p : CloudServices.t)
    (cfg : option CloudServices.CloudServicesConfig) : CloudServices.t :=
  foldl CloudServices.assign p (default [] cfg).

(** [init()], awaited to its end.  The context awaits the promise of [init()]
    before the plugin is handed to any other code, so the method runs as one
    piece; [this.tokenUrl] on the line after the [await] is the value tested
    before it.  [o] is what the transport or provider delivers if asked. *)
Definition init (w : World) (cfg : option CloudServices.CloudServicesConfig)
    (o : FetchOutcome) : World * Settlement unit :=
  let p := configure (plugin w) cfg in
  let w0 := with_plugin w p in
  match CloudServices.tokenUrl p with
  | Some u =>
      if truthy u then
        let '(w1, tok) := createToken w0 u in
        match Token_init_settle (Token_init w1 tok) tok o with
        | (w2, Resolved tok') =>
            let p1 := CloudServices.set_token (plugin w2) (Some tok') in
            (with_plugin w2
               (CloudServices.set_tokens p1
                  (JSMap.set (CloudServices._tokens p1) u tok')),
             Resolved tt)
        | (w2, Rejected e) => (w2, Rejected e)
        end
      else (with_plugin w0 (CloudServices.set_token p None), Resolved tt)
  | None => (with_plugin w0 (CloudServices.set_token p None), Resolved tt)
  end.

(** [destroy()].  [super.destroy()] belongs to [ContextPlugin]; it does not
    touch the fields this class declares.  Then every value of the map, in
    iteration order, is destroyed. *)
Definition destroy (w : World) : World * Completion unit :=
  (mkWorld (plugin w)
     (foldl Token_destroy (heap w) (JSMap.values (CloudServices._tokens (plugin w))))
     (requests w),
   Returned tt).

(** ** Lifecycles

    The life of one plugin instance when every asynchronous call is awaited
    before the next call is made: [init], then any sequence of calls to the
    public methods. *)
Inductive Op : Type :=
| OpRegister (u : TokenUrl) (o : FetchOutcome)
| OpGetTokenFor (u : TokenUrl)
| OpDestroy.

(** What a caller has observed. *)
Inductive Event : Type :=
| EvPrimary (u : TokenUrl) (tok : TokenRef)
| EvInitReturned
| EvInitRejected (e : Error)
| EvRegistered (u : TokenUrl) (tok : TokenRef)
| EvRegisterRejected (u : TokenUrl) (e : Error)
| EvGot (u : TokenUrl) (tok : TokenRef)
| EvThrew (u : TokenUrl) (e : Error)
| EvDestroyed.

Definition run_op (w : World) (op : Op) : World * Event :=
  match op with
  | OpRegister u o =>
      match registerTokenUrl w u o with
      | (w1, Resolved tok) => (w1, EvRegistered u tok)
      | (w1, Rejected e) => (w1, EvRegisterRejected u e)
      end
  | OpGetTokenFor u =>
      match getTokenFor w u with
      | (w1, Returned tok) => (w1, EvGot u tok)
      | (w1, Threw e) => (w1, EvThrew u e)
      end
  | OpDestroy => ((destroy w).1, EvDestroyed)
  end.

Fixpoint run (w : World) (ops : list Op) : World * list Event :=
  match ops with
  | [] => (w, [])
  | op :: ops' =>
      let '(w1, ev) := run_op w op in
      let '(w2, evs) := run w1 ops' in
      (w2, ev :: evs)
  end.

(** What [init] lets a caller observe: the primary token, when one was
    established, is the public field [token]. *)
Definition init_event (w : World) (s : Settlement unit) : Event :=
  match s with
  | Resolved _ =>
      match CloudServices.tokenUrl (plugin w), CloudServices.token (plugin w) with
      | Some u, Some tok => EvPrimary u tok
      | _, _ => EvInitReturned
      end
  | Rejected e => EvInitRejected e
  end.

Definition lifecycle (cfg : option CloudServices.CloudServicesConfig)
    (o : FetchOutcome) (ops : list Op) : World * list Event :=
  let '(w0, s) := init initial cfg o in
  let '(w1, evs) := run w0 ops in
  (w1, init_event w0 s :: evs).

(** [u] was successfully registered with token [tok]: through the primary
    endpoint of [init], or through a [registerTokenUrl] that resolved. *)
Definition registered (log : list Event) (u : TokenUrl) (tok : TokenRef) : Prop :=
  EvPrimary u tok ∈ log ∨ EvRegistered u tok ∈ log.

(** The token behind [r] has had [destroy()] called on it. *)
Definition destroyed (w : World) (r : TokenRef) : Prop :=
  ∃ tk, heap w !! r = Some tk ∧
        Token.state tk = Token.DESTROYED ∧ Token.value tk = None.

Abbreviation tokens_of w := (CloudServices._tokens (plugin w)).

Abbreviation not_registered :=
  (CKEditorError "cloudservices-token-not-registered").

(** The shape of a world in which every token of the map is a live object,
    no token object is stored under two keys, and the primary token, when
    there is one, is one of the map's values. *)
Definition consistent (w : World) : Prop :=
  (∀ u tok, JSMap.get (tokens_of w) u = Some tok → tok < length (heap w)) ∧
  (∀ u1 u2 tok,
     JSMap.get (tokens_of w) u1 = Some tok →
     JSMap.get (tokens_of w) u2 = Some tok → u1 = u2) ∧
  (∀ tok, CloudServices.token (plugin w) = Some tok →
          ∃ u, JSMap.get (tokens_of w) u = Some tok).

(** The primary endpoint as [init] sees it once the configuration has been
    copied: [this.tokenUrl] if it is truthy. *)
Definition primary_endpoint (p : CloudServices.t) : option TokenUrl :=
  match CloudServices.tokenUrl p with
  | Some u => if truthy u then Some u else None
  | None => None
  end.

(** ** Further vocabulary for the properties below *)

(** The property name under which [Object.entries] reports an entry. *)
Definition entry_key (e : CloudServices.ConfigEntry) : string :=
  match e with
  | CloudServices.CfgTokenUrl _ => "tokenUrl"
  | CloudServices.CfgUploadUrl _ => "uploadUrl"
  | CloudServices.CfgWebSocketUrl _ => "webSocketUrl"
  | CloudServices.CfgBundleVersion _ => "bundleVersion"
  end.

(** The instance carries the value of a configuration entry in the field of
    the same name. *)
Definition reflects (p : CloudServices.t) (e : CloudServices.ConfigEntry) : Prop :=
  match e with
  | CloudServices.CfgTokenUrl v => CloudServices.tokenUrl p = v
  | CloudServices.CfgUploadUrl v => CloudServices.uploadUrl p = v
  | CloudServices.CfgWebSocketUrl v => CloudServices.webSocketUrl p = v
  | CloudServices.CfgBundleVersion v => CloudServices.bundleVersion p = v
  end.

(** How many entries of a list of identities are the identity [u]. *)
Fixpoint occurrences (u : TokenUrl) (l : list TokenUrl) : nat :=
  match l with
  | [] => 0
  | u' :: l' => (if decide (u' = u) then 1 else 0) + occurrences u l'
  end.

(** How many [registerTokenUrl( u )] calls of a log were rejected. *)
Fixpoint rejections (u : TokenUrl) (log : list Event) : nat :=
  match log with
  | [] => 0
  | EvRegisterRejected u' _ :: log' =>
      (if decide (u' = u) then 1 else 0) + rejections u log'
  | _ :: log' => rejections u log'
  end.

(** 1 if [u] is in the map of [w1] but was not in the map of [w], else 0. *)
Definition newly_registered (w w1 : World) (u : TokenUrl) : nat :=
  if JSMap.has (tokens_of w) u then 0
  else if JSMap.has (tokens_of w1) u then 1 else 0.

(** Two calls of [registerTokenUrl], for [u1] and then for [u2], issued one
    right after the other: the world once both have run up to their
    [await]. *)
Definition two_calls_suspended (w : World) (u1 u2 : TokenUrl) : World :=
  (registerTokenUrl_start (registerTokenUrl_start w u1).1 u2).1.

(** Every token of the map is a live object that was created for the
    identity it is stored under and whose initialization has completed. *)
Definition initialized (w : World) : Prop :=
  ∀ u tok, JSMap.get (tokens_of w) u = Some tok →
    ∃ tk, heap w !! tok = Some tk ∧ Token.endpointIdentity tk = u ∧
          (Token.state tk = Token.VALID ∨ Token.state tk = Token.DESTROYED).

(** Every value the map iterates over is a live object. *)
Definition values_live (w : World) : Prop :=
  ∀ tok, tok ∈ JSMap.values (tokens_of w) → tok < length (heap w).

(** * Properties *)

(** ** The map *)
Section JSMap_facts.
Context {K V : Type} `{EqDecision K}.
Implicit Types (m : JSMap.t K V) (k : K) (v : V).

Lemma JSMap_has_get m k : JSMap.has m k = true ↔ is_Some (JSMap.get m k).
Proof.
  unfold JSMap.has. destruct (JSMap.get m k); split; intros Hx; eauto.
  - discriminate.
  - by destruct Hx.
Qed.

Lemma JSMap_has_false m k : JSMap.has m k = false ↔ JSMap.get m k = None.
Proof. unfold JSMap.has. by destruct (JSMap.get m k). Qed.

Lemma JSMap_get_set_eq m k v : JSMap.get (JSMap.set m k v) k = Some v.
Proof.
  induction m as [|[k' v'] m IH]; simpl.
  - by rewrite decide_True.
  - destruct (decide (k' = k)) as [->|Hne]; simpl.
    + by rewrite decide_True.
    + by rewrite decide_False.
Qed.

Lemma JSMap_get_set_ne m k k' v :
  k ≠ k' → JSMap.get (JSMap.set m k v) k' = JSMap.get m k'.
Proof.
  intros Hne. induction m as [|[k0 v0] m IH]; simpl.
  - by rewrite decide_False.
  - destruct (decide (k0 = k)) as [->|Hk]; simpl.
    + by rewrite !decide_False.
    + destruct (decide (k0 = k')); [done | apply IH].
Qed.

Lemma JSMap_get_values m k v : JSMap.get m k = Some v → v ∈ JSMap.values m.
Proof.
  induction m as [|[k0 v0] m IH]; simpl; [done |].
  destruct (decide (k0 = k)).
  - intros [= ->]. apply list_elem_of_here.
  - intros Hg. apply list_elem_of_further, IH, Hg.
Qed.

(** Setting a key that is absent: the lookups of the new map. *)
Lemma JSMap_get_set_fresh m k v k' v' :
  JSMap.get m k = None →
  JSMap.get (JSMap.set m k v) k' = Some v' ↔
  JSMap.get m k' = Some v' ∨ (k' = k ∧ v' = v).
Proof.
  intros Hfresh. destruct (decide (k = k')) as [<-|Hne].
  - rewrite JSMap_get_set_eq, Hfresh. split.
    + intros [= ->]. by right.
    + intros [Hx | [_ ->]]; [discriminate | done].
  - rewrite JSMap_get_set_ne by done. split; [by left |].
    intros [Hx | [-> _]]; [done | by destruct Hne].
Qed.
End JSMap_facts.

(** ** The heap *)

Lemma heap_alloc_lookup (h : list Token.t) (tk : Token.t) :
  (h ++ [tk]) !! length h = Some tk.
Proof. by rewrite list_lookup_middle. Qed.

Lemma heap_alloc_insert (h : list Token.t) (tk tk' : Token.t) :
  <[length h := tk']> (h ++ [tk]) = h ++ [tk'].
Proof.
  replace (length h) with (length h + 0) by lia.
  by rewrite insert_app_r.
Qed.

Lemma heap_alloc_alter (f : Token.t → Token.t) (h : list Token.t) (tk : Token.t) :
  alter f (length h) (h ++ [tk]) = h ++ [f tk].
Proof.
  replace (length h) with (length h + 0) by lia.
  by rewrite alter_app_r.
Qed.

Lemma Token_destroy_idemp (tk : Token.t) :
  Token.destroy (Token.destroy tk) = Token.destroy tk.
Proof. done. Qed.

(** Destroying the tokens behind a list of references: what each heap cell
    holds afterwards. *)
Lemma foldl_destroy_lookup (rs : list TokenRef) (h : list Token.t) (r : TokenRef) :
  foldl Token_destroy h rs !! r =
  (if decide (r ∈ rs) then Token.destroy else id) <$> (h !! r).
Proof.
  revert h. induction rs as [|a rs IH]; intros h; simpl.
  - by destruct (h !! r).
  - rewrite IH. unfold Token_destroy at 1.
    destruct (decide (r = a)) as [->|Hne].
    + rewrite list_lookup_alter_eq.
      rewrite (decide_True (P := a ∈ a :: rs)) by apply list_elem_of_here.
      by destruct (decide (a ∈ rs)), (h !! a).
    + rewrite list_lookup_alter_ne by done.
      destruct (decide (r ∈ rs)) as [Hin|Hnin].
      * by rewrite decide_True by (by apply list_elem_of_further).
      * rewrite decide_False; [done |].
        intros [?|?]%elem_of_cons; done.
Qed.

Lemma foldl_destroy_idemp (rs : list TokenRef) (h : list Token.t) :
  foldl Token_destroy (foldl Token_destroy h rs) rs = foldl Token_destroy h rs.
Proof.
  apply list_eq. intros r. rewrite !foldl_destroy_lookup.
  by destruct (decide (r ∈ rs)), (h !! r).
Qed.

Lemma foldl_destroy_length (rs : list TokenRef) (h : list Token.t) :
  length (foldl Token_destroy h rs) = length h.
Proof.
  revert h. induction rs as [|a rs IH]; intros h; simpl; [done |].
  rewrite IH. unfold Token_destroy. apply length_alter.
Qed.

(** ** [registerTokenUrl], case by case *)

Lemma getTokenFor_hit (w : World) (u : TokenUrl) (tok : TokenRef) :
  JSMap.get (tokens_of w) u = Some tok → getTokenFor w u = (w, Returned tok).
Proof. unfold getTokenFor. by intros ->. Qed.

Lemma getTokenFor_miss (w : World) (u : TokenUrl) :
  JSMap.get (tokens_of w) u = None → getTokenFor w u = (w, Threw not_registered).
Proof. unfold getTokenFor. by intros ->. Qed.

(** A key that is present: the call settles at once with the cached token. *)
Lemma registerTokenUrl_start_cached (w : World) (u : TokenUrl) (tok : TokenRef) :
  JSMap.get (tokens_of w) u = Some tok →
  registerTokenUrl_start w u = (w, Settled (Resolved tok)).
Proof.
  intros Hg. unfold registerTokenUrl_start, JSMap.has.
  by rewrite Hg, (getTokenFor_hit _ _ _ Hg).
Qed.

(** A key that is absent: a token is created, its request is issued, and the
    call is suspended on it. *)
Lemma registerTokenUrl_start_fresh (w : World) (u : TokenUrl) :
  JSMap.get (tokens_of w) u = None →
  registerTokenUrl_start w u =
  (mkWorld (plugin w)
     (heap w ++ [Token.mk u None Token.INITIALIZING false])
     (requests w ++ [u]),
   Awaiting (length (heap w))).
Proof.
  intros Hg. unfold registerTokenUrl_start, JSMap.has. rewrite Hg.
  unfold createToken, Token_init; simpl.
  by rewrite heap_alloc_lookup, heap_alloc_insert.
Qed.

(** The resumption after a failed request leaves the plugin as it was. *)
Lemma registerTokenUrl_resume_fail (w : World) (u : TokenUrl) (tok : TokenRef) :
  registerTokenUrl_resume w u tok FetchFail =
  (mkWorld (plugin w) (alter (Token.init_settled FetchFail) tok (heap w)) (requests w),
   Rejected InitializationFailure).
Proof. done. Qed.

Lemma registerTokenUrl_resume_ok (w : World) (u : TokenUrl) (tok : TokenRef) (v : string) :
  registerTokenUrl_resume w u tok (FetchOk v) =
  (mkWorld (CloudServices.set_tokens (plugin w) (JSMap.set (tokens_of w) u tok))
     (alter (Token.init_settled (FetchOk v)) tok (heap w)) (requests w),
   Resolved tok).
Proof. done. Qed.

Lemma registerTokenUrl_cached (w : World) (u : TokenUrl) (o : FetchOutcome) (tok : TokenRef) :
  JSMap.get (tokens_of w) u = Some tok →
  registerTokenUrl w u o = (w, Resolved tok).
Proof.
  intros Hg. unfold registerTokenUrl.
  by rewrite (registerTokenUrl_start_cached _ _ _ Hg).
Qed.

Lemma registerTokenUrl_fresh_ok (w : World) (u : TokenUrl) (v : string) :
  JSMap.get (tokens_of w) u = None →
  registerTokenUrl w u (FetchOk v) =
  (mkWorld
     (CloudServices.set_tokens (plugin w)
        (JSMap.set (tokens_of w) u (length (heap w))))
     (heap w ++ [Token.mk u (Some v) Token.VALID false])
     (requests w ++ [u]),
   Resolved (length (heap w))).
Proof.
  intros Hg. unfold registerTokenUrl.
  rewrite (registerTokenUrl_start_fresh _ _ Hg), registerTokenUrl_resume_ok; simpl.
  by rewrite heap_alloc_alter.
Qed.

Lemma registerTokenUrl_fresh_fail (w : World) (u : TokenUrl) :
  JSMap.get (tokens_of w) u = None →
  registerTokenUrl w u FetchFail =
  (mkWorld (plugin w)
     (heap w ++ [Token.mk u None Token.INITIALIZING false])
     (requests w ++ [u]),
   Rejected InitializationFailure).
Proof.
  intros Hg. unfold registerTokenUrl.
  rewrite (registerTokenUrl_start_fresh _ _ Hg), registerTokenUrl_resume_fail; simpl.
  by rewrite heap_alloc_alter.
Qed.

(** The three ways a call can go. *)
Lemma registerTokenUrl_cases (w : World) (u : TokenUrl) (o : FetchOutcome) :
  (∃ tok, JSMap.get (tokens_of w) u = Some tok ∧
          registerTokenUrl w u o = (w, Resolved tok)) ∨
  (∃ v, o = FetchOk v ∧ JSMap.get (tokens_of w) u = None ∧
        registerTokenUrl w u o =
        (mkWorld
           (CloudServices.set_tokens (plugin w)
              (JSMap.set (tokens_of w) u (length (heap w))))
           (heap w ++ [Token.mk u (Some v) Token.VALID false])
           (requests w ++ [u]),
         Resolved (length (heap w)))) ∨
  (o = FetchFail ∧ JSMap.get (tokens_of w) u = None ∧
   registerTokenUrl w u o =
   (mkWorld (plugin w)
      (heap w ++ [Token.mk u None Token.INITIALIZING false])
      (requests w ++ [u]),
    Rejected InitializationFailure)).
Proof.
  destruct (JSMap.get (tokens_of w) u) as [tok|] eqn:Hg.
  - left. exists tok. split; [done |]. by apply registerTokenUrl_cached.
  - right. destruct o as [v|].
    + left. exists v. repeat split. by apply registerTokenUrl_fresh_ok.
    + right. repeat split. by apply registerTokenUrl_fresh_fail.
Qed.

(** ** [init], case by case *)

Lemma configure_token (p : CloudServices.t) cfg :
  CloudServices.token (configure p cfg) = CloudServices.token p.
Proof.
  unfold configure. generalize (default [] cfg). intros es. revert p.
  induction es as [|e es IH]; intros p; simpl; [done |].
  rewrite IH. by destruct e.
Qed.

Lemma configure_tokens (p : CloudServices.t) cfg :
  CloudServices._tokens (configure p cfg) = CloudServices._tokens p.
Proof.
  unfold configure. generalize (default [] cfg). intros es. revert p.
  induction es as [|e es IH]; intros p; simpl; [done |].
  rewrite IH. by destruct e.
Qed.

(** Without an entry that carries a token URL, the field stays undefined. *)
Lemma configure_tokenUrl_absent (p : CloudServices.t) cfg :
  CloudServices.tokenUrl p = None →
  (∀ u, CloudServices.CfgTokenUrl (Some u) ∉ default [] cfg) →
  CloudServices.tokenUrl (configure p cfg) = None.
Proof.
  unfold configure. generalize (default [] cfg). intros es. revert p.
  induction es as [|e es IH]; intros p Hp Hes; simpl; [done |].
  apply IH.
  - destruct e as [[u|]| | |]; simpl; try done.
    destruct (Hes u). apply list_elem_of_here.
  - intros u Hin. apply (Hes u). by apply list_elem_of_further.
Qed.

Lemma init_degraded (w : World) cfg (o : FetchOutcome) :
  primary_endpoint (configure (plugin w) cfg) = None →
  init w cfg o =
  (mkWorld (CloudServices.set_token (configure (plugin w) cfg) None)
     (heap w) (requests w),
   Resolved tt).
Proof.
  unfold primary_endpoint, init.
  destruct (CloudServices.tokenUrl (configure (plugin w) cfg)) as [u|]; [|done].
  by destruct (truthy u).
Qed.

Lemma init_ok (w : World) cfg (u : TokenUrl) (v : string) :
  primary_endpoint (configure (plugin w) cfg) = Some u →
  init w cfg (FetchOk v) =
  (mkWorld
     (CloudServices.set_tokens
        (CloudServices.set_token (configure (plugin w) cfg) (Some (length (heap w))))
        (JSMap.set (tokens_of w) u (length (heap w))))
     (heap w ++ [Token.mk u (Some v) Token.VALID false])
     (requests w ++ [u]),
   Resolved tt).
Proof.
  unfold primary_endpoint, init.
  destruct (CloudServices.tokenUrl (configure (plugin w) cfg)) as [u'|]; [|done].
  destruct (truthy u'); [|done]. intros [= ->].
  unfold createToken, Token_init, Token_init_settle; simpl.
  rewrite heap_alloc_lookup, heap_alloc_insert; simpl.
  by rewrite heap_alloc_alter, configure_tokens.
Qed.

Lemma init_fail (w : World) cfg (u : TokenUrl) :
  primary_endpoint (configure (plugin w) cfg) = Some u →
  init w cfg FetchFail =
  (mkWorld (configure (plugin w) cfg)
     (heap w ++ [Token.mk u None Token.INITIALIZING false])
     (requests w ++ [u]),
   Rejected InitializationFailure).
Proof.
  unfold primary_endpoint, init.
  destruct (CloudServices.tokenUrl (configure (plugin w) cfg)) as [u'|]; [|done].
  destruct (truthy u'); [|done]. intros [= ->].
  unfold createToken, Token_init, Token_init_settle; simpl.
  rewrite heap_alloc_lookup, heap_alloc_insert; simpl.
  by rewrite heap_alloc_alter.
Qed.

Lemma primary_endpoint_tokenUrl (p : CloudServices.t) (u : TokenUrl) :
  primary_endpoint p = Some u → CloudServices.tokenUrl p = Some u.
Proof.
  unfold primary_endpoint. destruct (CloudServices.tokenUrl p) as [u'|]; [|done].
  by destruct (truthy u'); intros [= ->].
Qed.

(** ** Consistency is an invariant of the lifecycle *)

Lemma consistent_register (w w1 : World) (u : TokenUrl) (o : FetchOutcome)
    (s : Settlement TokenRef) :
  consistent w → registerTokenUrl w u o = (w1, s) → consistent w1.
Proof.
  intros (Hlive & Hinj & Hprim) Hreg.
  destruct (registerTokenUrl_cases w u o)
    as [(tok & _ & E) | [(v & _ & Hfresh & E) | (_ & Hfresh & E)]];
    rewrite E in Hreg; injection Hreg as <- <-.
  - done.
  - repeat split; simpl.
    + intros u' tok Hg. rewrite length_app; simpl.
      apply (JSMap_get_set_fresh _ _ _ _ _ Hfresh) in Hg as [Hg | [_ ->]].
      * apply Hlive in Hg. lia.
      * lia.
    + intros u1 u2 tok Hg1 Hg2.
      apply (JSMap_get_set_fresh _ _ _ _ _ Hfresh) in Hg1 as [Hg1 | [-> ->]];
        apply (JSMap_get_set_fresh _ _ _ _ _ Hfresh) in Hg2 as [Hg2 | [E2 E2']].
      * by apply (Hinj _ _ tok).
      * subst. apply Hlive in Hg1. lia.
      * apply Hlive in Hg2. lia.
      * by subst.
    + intros tok Htok. destruct (Hprim tok Htok) as [u0 Hu0].
      exists u0. apply (JSMap_get_set_fresh _ _ _ _ _ Hfresh). by left.
  - repeat split; simpl.
    + intros u' tok Hg. rewrite length_app; simpl. apply Hlive in Hg. lia.
    + done.
    + done.
Qed.

Lemma consistent_destroy (w : World) : consistent w → consistent (destroy w).1.
Proof.
  intros (Hlive & Hinj & Hprim). repeat split; simpl; [|done|done].
  intros u tok Hg. rewrite foldl_destroy_length. by apply (Hlive u).
Qed.

Lemma consistent_run_op (w w1 : World) (op : Op) (ev : Event) :
  consistent w → run_op w op = (w1, ev) → consistent w1.
Proof.
  intros Hw. destruct op as [u o | u |]; simpl.
  - destruct (registerTokenUrl w u o) as [w' s] eqn:E.
    pose proof (consistent_register _ _ _ _ _ Hw E) as Hw'.
    by destruct s; intros [= <- _].
  - unfold getTokenFor. by destruct (JSMap.get (tokens_of w) u); intros [= <- _].
  - intros [= <- _]. by apply consistent_destroy.
Qed.

Lemma consistent_run (ops : list Op) (w w1 : World) (evs : list Event) :
  consistent w → run w ops = (w1, evs) → consistent w1.
Proof.
  revert w evs. induction ops as [|op ops IH]; intros w evs Hw; simpl.
  - by intros [= <- _].
  - destruct (run_op w op) as [w' ev] eqn:E1.
    destruct (run w' ops) as [w'' evs'] eqn:E2. intros [= <- _].
    eapply IH; [|done]. by eapply consistent_run_op.
Qed.

Lemma consistent_init cfg (o : FetchOutcome) : consistent (init initial cfg o).1.
Proof.
  destruct (primary_endpoint (configure (plugin initial) cfg)) as [u|] eqn:Hp.
  - destruct o as [v|].
    + rewrite (init_ok _ _ _ _ Hp); simpl.
      assert (∀ u' tok,
        (if decide (u = u') then Some 0 else None) = Some tok → u' = u ∧ tok = 0)
        as Hone.
      { intros u' tok. by destruct (decide (u = u')) as [->|]; intros [= <-]. }
      repeat split; simpl.
      * intros u' tok [_ ->]%Hone. lia.
      * intros u1 u2 tok [-> _]%Hone [-> _]%Hone. done.
      * intros tok [= <-]. exists u. by rewrite decide_True.
    + rewrite (init_fail _ _ _ Hp); simpl.
      repeat split; simpl; rewrite ?configure_tokens, ?configure_token; done.
  - rewrite (init_degraded _ _ _ Hp); simpl.
    repeat split; simpl; rewrite ?configure_tokens; done.
Qed.

Lemma consistent_lifecycle cfg (o : FetchOutcome) (ops : list Op) :
  consistent (lifecycle cfg o ops).1.
Proof.
  unfold lifecycle. pose proof (consistent_init cfg o) as H0.
  destruct (init initial cfg o) as [w0 s]; simpl in H0.
  destruct (run w0 ops) as [w1 evs] eqn:E; simpl.
  by eapply consistent_run.
Qed.

(** ** The map holds exactly what was successfully registered *)

Lemma run_op_tokens (w w1 : World) (op : Op) (ev : Event) :
  run_op w op = (w1, ev) →
  (∀ u tok, ev ≠ EvPrimary u tok) ∧
  (∀ u tok, JSMap.get (tokens_of w1) u = Some tok ↔
            JSMap.get (tokens_of w) u = Some tok ∨ ev = EvRegistered u tok).
Proof.
  destruct op as [u0 o | u0 |]; simpl.
  - destruct (registerTokenUrl_cases w u0 o)
      as [(tok0 & Hhit & E) | [(v & _ & Hfresh & E) | (_ & Hfresh & E)]];
      rewrite E; intros [= <- <-]; (split; [done |]); intros u tok; simpl.
    + split; [by left |]. intros [Hg | [= -> ->]]; done.
    + rewrite (JSMap_get_set_fresh _ _ _ _ _ Hfresh). split.
      * intros [Hg | [-> ->]]; [by left | by right].
      * intros [Hg | [= -> ->]]; [by left | by right].
    + split; [by left |]. by intros [Hg | [=]].
  - unfold getTokenFor.
    destruct (JSMap.get (tokens_of w) u0); intros [= <- <-];
      (split; [done |]); intros u tok;
      (split; [by left | by intros [Hg | [=]]]).
  - intros [= <- <-]. split; [done |]. intros u tok; simpl.
    split; [by left | by intros [Hg | [=]]].
Qed.

Lemma run_tokens (ops : list Op) (w w1 : World) (evs : list Event) :
  run w ops = (w1, evs) →
  (∀ u tok, EvPrimary u tok ∉ evs) ∧
  (∀ u tok, JSMap.get (tokens_of w1) u = Some tok ↔
            JSMap.get (tokens_of w) u = Some tok ∨ EvRegistered u tok ∈ evs).
Proof.
  revert w evs. induction ops as [|op ops IH]; intros w evs; simpl.
  - intros [= <- <-]. split.
    + intros u tok. apply not_elem_of_nil.
    + intros u tok. split; [by left |].
      intros [Hg | Hin]; [done |]. by apply not_elem_of_nil in Hin.
  - destruct (run_op w op) as [w' ev] eqn:E1.
    destruct (run w' ops) as [w'' evs'] eqn:E2. intros [= <- <-].
    destruct (run_op_tokens _ _ _ _ E1) as [Hnp1 Hmap1].
    destruct (IH _ _ E2) as [Hnp2 Hmap2]. split.
    + intros u tok [Hx | Hx]%elem_of_cons.
      * by apply (Hnp1 u tok).
      * by apply (Hnp2 u tok).
    + intros u tok. rewrite Hmap2, Hmap1, elem_of_cons. split.
      * intros [[Hg | ->] | Hin]; [by left | right; by left | right; by right].
      * intros [Hg | [-> | Hin]]; [left; by left | left; by right | by right].
Qed.

Lemma init_tokens cfg (o : FetchOutcome) (w0 : World) (s : Settlement unit) :
  init initial cfg o = (w0, s) →
  (∀ u tok, init_event w0 s ≠ EvRegistered u tok) ∧
  (∀ u tok, JSMap.get (tokens_of w0) u = Some tok ↔
            init_event w0 s = EvPrimary u tok).
Proof.
  destruct (primary_endpoint (configure (plugin initial) cfg)) as [u0|] eqn:Hp.
  - destruct o as [v|].
    + rewrite (init_ok _ _ _ _ Hp). intros [= <- <-].
      pose proof (primary_endpoint_tokenUrl _ _ Hp) as Hu.
      simpl in Hu |- *. rewrite Hu. split; [done |].
      intros u tok. destruct (decide (u0 = u)) as [->|Hne]; split.
      * by intros [= <-].
      * by intros [= <-].
      * done.
      * intros [= -> _]. by destruct Hne.
    + rewrite (init_fail _ _ _ Hp). intros [= <- <-]; simpl.
      rewrite configure_tokens; simpl. by split.
  - rewrite (init_degraded _ _ _ Hp). intros [= <- <-]; simpl.
    rewrite configure_tokens; simpl.
    split; intros u tok; by destruct (CloudServices.tokenUrl _).
Qed.

Lemma lifecycle_registered cfg (o : FetchOutcome) (ops : list Op)
    (u : TokenUrl) (tok : TokenRef) :
  registered (lifecycle cfg o ops).2 u tok ↔
  JSMap.get (tokens_of (lifecycle cfg o ops).1) u = Some tok.
Proof.
  unfold lifecycle, registered.
  destruct (init initial cfg o) as [w0 s] eqn:E0.
  destruct (run w0 ops) as [w1 evs] eqn:E1; simpl.
  destruct (init_tokens _ _ _ _ E0) as [Hnr Hmap0].
  destruct (run_tokens _ _ _ _ E1) as [Hnp Hmap1].
  rewrite Hmap1, Hmap0, !elem_of_cons. split.
  - intros [[Hx | Hx] | [Hx | Hx]].
    + by left.
    + by destruct (Hnp u tok).
    + by destruct (Hnr u tok).
    + by right.
  - intros [Hx | Hx]; [left; by left | right; by right].
Qed.

(** ** Registrations and the map *)

Lemma registerTokenUrl_resolved_get (w w1 : World) (u : TokenUrl)
    (o : FetchOutcome) (tok : TokenRef) :
  registerTokenUrl w u o = (w1, Resolved tok) →
  JSMap.get (tokens_of w1) u = Some tok.
Proof.
  destruct (registerTokenUrl_cases w u o)
    as [(tok0 & Hhit & E) | [(v & _ & Hfresh & E) | (_ & Hfresh & E)]];
    rewrite E; intros [= <- <-]; simpl.
  - done.
  - apply JSMap_get_set_eq.
Qed.

Lemma registerTokenUrl_keeps_get (w w1 : World) (u : TokenUrl) (o : FetchOutcome)
    (s : Settlement TokenRef) (u' : TokenUrl) (tok' : TokenRef) :
  registerTokenUrl w u o = (w1, s) →
  JSMap.get (tokens_of w) u' = Some tok' →
  JSMap.get (tokens_of w1) u' = Some tok'.
Proof.
  destruct (registerTokenUrl_cases w u o)
    as [(tok0 & Hhit & E) | [(v & _ & Hfresh & E) | (_ & Hfresh & E)]];
    rewrite E; intros [= <- <-] Hg; simpl; try done.
  apply (JSMap_get_set_fresh _ _ _ _ _ Hfresh). by left.
Qed.

(** [destroy] reaches every token of the map that is a live object. *)
Lemma destroy_destroyed (w : World) (tok : TokenRef) :
  tok ∈ JSMap.values (tokens_of w) → tok < length (heap w) →
  destroyed (destroy w).1 tok.
Proof.
  intros Hin Hlive. unfold destroyed, destroy; simpl.
  destruct (lookup_lt_is_Some_2 _ _ Hlive) as [tk Htk].
  exists (Token.destroy tk). split; [|done].
  by rewrite foldl_destroy_lookup, Htk, decide_True.
Qed.

(** ** The claims *)

(** C1 (the code departs from it).  When [registerTokenUrl( u )] is called a
    second time while the first call for the same, not yet registered [u] is
    still suspended on its token's initialization, the second call does not
    see the first one: each call creates its own Token and issues its own
    request, the two calls resolve to two different Token objects, and the
    map keeps only the second. *)
Theorem registerTokenUrl_overlapping_calls (w : World) (u : TokenUrl) (v1 v2 : string) :
  JSMap.get (tokens_of w) u = None →
  ∃ w1 w2 w3 w4 tok1 tok2,
    registerTokenUrl_start w u = (w1, Awaiting tok1) ∧
    registerTokenUrl_start w1 u = (w2, Awaiting tok2) ∧
    registerTokenUrl_resume w2 u tok1 (FetchOk v1) = (w3, Resolved tok1) ∧
    registerTokenUrl_resume w3 u tok2 (FetchOk v2) = (w4, Resolved tok2) ∧
    tok1 ≠ tok2 ∧
    requests w4 = requests w ++ [u; u] ∧
    heap w4 = heap w ++ [Token.mk u (Some v1) Token.VALID false;
                         Token.mk u (Some v2) Token.VALID false] ∧
    JSMap.get (tokens_of w4) u = Some tok2.
Proof.
  intros Hfresh.
  pose proof (registerTokenUrl_start_fresh w u Hfresh) as E1.
  set (w1 := mkWorld (plugin w)
               (heap w ++ [Token.mk u None Token.INITIALIZING false])
               (requests w ++ [u])) in E1.
  pose proof (registerTokenUrl_start_fresh w1 u Hfresh) as E2.
  exists w1, (registerTokenUrl_start w1 u).1.
  rewrite E2; simpl.
  eexists _, _, (length (heap w)), (length (heap w ++ [_])).
  split; [exact E1 |]. split; [reflexivity |].
  rewrite !registerTokenUrl_resume_ok; simpl.
  split; [reflexivity |]. split; [reflexivity |].
  split; [rewrite length_app; simpl; lia |].
  split; [by rewrite <- !app_assoc |].
  split; [| apply JSMap_get_set_eq].
  rewrite alter_app_l by (rewrite length_app; simpl; lia).
  rewrite heap_alloc_alter; simpl.
  replace (length (heap w ++ [Token.mk u None Token.INITIALIZING false]))
    with (length (heap w ++ [Token.mk u (Some v1) Token.VALID false]))
    by (rewrite !length_app; done).
  rewrite heap_alloc_alter; simpl. by rewrite <- app_assoc.
Qed.

Lemma registerTokenUrl_overlapping_calls_witness :
  ∃ w1 w2 w3 w4 tok1 tok2,
    registerTokenUrl_start initial (UrlString "https://ex/token") = (w1, Awaiting tok1) ∧
    registerTokenUrl_start w1 (UrlString "https://ex/token") = (w2, Awaiting tok2) ∧
    registerTokenUrl_resume w2 (UrlString "https://ex/token") tok1 (FetchOk "tok-1")
      = (w3, Resolved tok1) ∧
    registerTokenUrl_resume w3 (UrlString "https://ex/token") tok2 (FetchOk "tok-2")
      = (w4, Resolved tok2) ∧
    tok1 ≠ tok2 ∧
    requests w4 =
      requests initial ++ [UrlString "https://ex/token"; UrlString "https://ex/token"] ∧
    heap w4 =
      heap initial ++
        [Token.mk (UrlString "https://ex/token") (Some "tok-1") Token.VALID false;
         Token.mk (UrlString "https://ex/token") (Some "tok-2") Token.VALID false] ∧
    JSMap.get (tokens_of w4) (UrlString "https://ex/token") = Some tok2.
Proof.
  apply (registerTokenUrl_overlapping_calls initial
           (UrlString "https://ex/token") "tok-1" "tok-2").
  reflexivity.
Defined.

(** C2 (as the code has it).  After two distinct identities have been
    registered and the plugin has been destroyed, [getTokenFor] does not
    throw for either of them: [destroy] leaves the map as it is, so each
    lookup still returns the Token object its registration resolved to.  The
    two objects are different and both have been destroyed. *)
Theorem getTokenFor_after_destroy cfg (o : FetchOutcome) (ops : list Op)
    (u1 u2 : TokenUrl) (o1 o2 : FetchOutcome) (w1 w2 : World) (t1 t2 : TokenRef) :
  u1 ≠ u2 →
  registerTokenUrl (lifecycle cfg o ops).1 u1 o1 = (w1, Resolved t1) →
  registerTokenUrl w1 u2 o2 = (w2, Resolved t2) →
  t1 ≠ t2 ∧
  getTokenFor (destroy w2).1 u1 = ((destroy w2).1, Returned t1) ∧
  getTokenFor (destroy w2).1 u2 = ((destroy w2).1, Returned t2) ∧
  destroyed (destroy w2).1 t1 ∧
  destroyed (destroy w2).1 t2.
Proof.
  intros Hne E1 E2.
  pose proof (consistent_lifecycle cfg o ops) as Hc0.
  pose proof (consistent_register _ _ _ _ _ Hc0 E1) as Hc1.
  pose proof (consistent_register _ _ _ _ _ Hc1 E2) as (Hlive & Hinj & _).
  pose proof (registerTokenUrl_resolved_get _ _ _ _ _ E1) as Hg1.
  pose proof (registerTokenUrl_keeps_get _ _ _ _ _ _ _ E2 Hg1) as Hg1'.
  pose proof (registerTokenUrl_resolved_get _ _ _ _ _ E2) as Hg2.
  split; [| split; [| split; [| split]]].
  - intros ->. by apply Hne, (Hinj u1 u2 t2).
  - by apply getTokenFor_hit.
  - by apply getTokenFor_hit.
  - apply destroy_destroyed; [by eapply JSMap_get_values | by eapply Hlive].
  - apply destroy_destroyed; [by eapply JSMap_get_values | by eapply Hlive].
Qed.

Lemma getTokenFor_after_destroy_witness :
  0 ≠ 1 ∧
  getTokenFor
    (destroy (registerTokenUrl
                (registerTokenUrl (lifecycle None FetchFail []).1
                   (UrlString "https://ex/a") (FetchOk "tok-a")).1
                (UrlCallback 7) (FetchOk "tok-b")).1).1
    (UrlString "https://ex/a")
  = ((destroy (registerTokenUrl
                 (registerTokenUrl (lifecycle None FetchFail []).1
                    (UrlString "https://ex/a") (FetchOk "tok-a")).1
                 (UrlCallback 7) (FetchOk "tok-b")).1).1,
     Returned 0).
Proof.
  pose proof (getTokenFor_after_destroy None FetchFail []
                (UrlString "https://ex/a") (UrlCallback 7)
                (FetchOk "tok-a") (FetchOk "tok-b")
                (registerTokenUrl (lifecycle None FetchFail []).1
                   (UrlString "https://ex/a") (FetchOk "tok-a")).1
                (registerTokenUrl
                   (registerTokenUrl (lifecycle None FetchFail []).1
                      (UrlString "https://ex/a") (FetchOk "tok-a")).1
                   (UrlCallback 7) (FetchOk "tok-b")).1
                0 1) as H.
  destruct H as (Hne & Hg1 & _).
  - discriminate.
  - reflexivity.
  - reflexivity.
  - split; [exact Hne | exact Hg1].
Defined.

(** C2, the claim as stated, at a concrete input: after registering
    ["https://ex/a"] and ["https://ex/b"] on a new plugin and destroying it,
    [getTokenFor] for the first URL returns token 0 instead of throwing. *)
Lemma getTokenFor_after_destroy_counterexample :
  ¬ (∀ (w w1 w2 : World) (u1 u2 : TokenUrl) (o1 o2 : FetchOutcome)
       (t1 t2 : TokenRef),
       u1 ≠ u2 →
       registerTokenUrl w u1 o1 = (w1, Resolved t1) →
       registerTokenUrl w1 u2 o2 = (w2, Resolved t2) →
       (getTokenFor (destroy w2).1 u1).2 = Threw not_registered ∧
       (getTokenFor (destroy w2).1 u2).2 = Threw not_registered).
Proof.
  intros Hclaim.
  destruct (Hclaim initial
              (registerTokenUrl initial (UrlString "https://ex/a") (FetchOk "tok-a")).1
              (registerTokenUrl
                 (registerTokenUrl initial (UrlString "https://ex/a") (FetchOk "tok-a")).1
                 (UrlString "https://ex/b") (FetchOk "tok-b")).1
              (UrlString "https://ex/a") (UrlString "https://ex/b")
              (FetchOk "tok-a") (FetchOk "tok-b") 0 1) as [Hthrew _].
  - discriminate.
  - reflexivity.
  - reflexivity.
  - discriminate Hthrew.
Qed.

(** C3.  When [registerTokenUrl( u )] has to initialize a token for [u] and
    that initialization fails, the promise rejects, the plugin (its map and
    its primary token) is exactly as before, and a following
    [getTokenFor( u )] throws [cloudservices-token-not-registered]. *)
Theorem registerTokenUrl_failure (w : World) (u : TokenUrl) :
  JSMap.get (tokens_of w) u = None →
  ∃ w', registerTokenUrl w u FetchFail = (w', Rejected InitializationFailure) ∧
        plugin w' = plugin w ∧
        getTokenFor w' u = (w', Threw not_registered).
Proof.
  intros Hfresh. eexists. split; [by apply registerTokenUrl_fresh_fail |].
  split; [done |]. by apply getTokenFor_miss.
Qed.

Lemma registerTokenUrl_failure_witness :
  ∃ w', registerTokenUrl initial (UrlCallback 1) FetchFail
          = (w', Rejected InitializationFailure) ∧
        plugin w' = plugin initial ∧
        getTokenFor w' (UrlCallback 1) = (w', Threw not_registered).
Proof.
  apply (registerTokenUrl_failure initial (UrlCallback 1)). reflexivity.
Defined.

(** C4 (the code departs from it; the defect is the one of C1).  A
    registration of [u] can resolve successfully to one token while
    [getTokenFor( u )] afterwards returns another: when two calls of
    [registerTokenUrl( u )] overlap and both requests succeed, the first call
    resolves to its own token and [getTokenFor( u )] returns that token only
    until the second call settles; from then on it returns the second call's
    token, a different object. *)
Theorem getTokenFor_after_overlapping_calls (w : World) (u : TokenUrl) (v1 v2 : string) :
  JSMap.get (tokens_of w) u = None →
  ∃ w1 w2 w3 w4,
    registerTokenUrl_start w u = (w1, Awaiting (length (heap w))) ∧
    registerTokenUrl_start w1 u = (w2, Awaiting (S (length (heap w)))) ∧
    registerTokenUrl_resume w2 u (length (heap w)) (FetchOk v1)
    = (w3, Resolved (length (heap w))) ∧
    getTokenFor w3 u = (w3, Returned (length (heap w))) ∧
    registerTokenUrl_resume w3 u (S (length (heap w))) (FetchOk v2)
    = (w4, Resolved (S (length (heap w)))) ∧
    getTokenFor w4 u = (w4, Returned (S (length (heap w)))) ∧
    length (heap w) ≠ S (length (heap w)).
Proof.
  intros Hfresh.
  pose proof (registerTokenUrl_start_fresh w u Hfresh) as E1.
  set (w1 := mkWorld (plugin w)
               (heap w ++ [Token.mk u None Token.INITIALIZING false])
               (requests w ++ [u])) in E1.
  pose proof (registerTokenUrl_start_fresh w1 u Hfresh) as E2.
  assert (length (heap w1) = S (length (heap w))) as Hlen.
  { unfold w1; simpl. rewrite length_app; simpl. lia. }
  rewrite Hlen in E2.
  exists w1, (registerTokenUrl_start w1 u).1.
  rewrite E2; simpl.
  eexists _, _. split; [exact E1 |]. split; [reflexivity |].
  rewrite !registerTokenUrl_resume_ok; simpl.
  split; [reflexivity |].
  split; [apply getTokenFor_hit; simpl; apply JSMap_get_set_eq |].
  split; [reflexivity |].
  split; [apply getTokenFor_hit; simpl; apply JSMap_get_set_eq |].
  lia.
Qed.

Lemma getTokenFor_after_overlapping_calls_witness :
  ∃ w1 w2 w3 w4,
    registerTokenUrl_start initial (UrlString "https://ex/token")
    = (w1, Awaiting (length (heap initial))) ∧
    registerTokenUrl_start w1 (UrlString "https://ex/token")
    = (w2, Awaiting (S (length (heap initial)))) ∧
    registerTokenUrl_resume w2 (UrlString "https://ex/token")
      (length (heap initial)) (FetchOk "tok-1")
    = (w3, Resolved (length (heap initial))) ∧
    getTokenFor w3 (UrlString "https://ex/token")
    = (w3, Returned (length (heap initial))) ∧
    registerTokenUrl_resume w3 (UrlString "https://ex/token")
      (S (length (heap initial))) (FetchOk "tok-2")
    = (w4, Resolved (S (length (heap initial)))) ∧
    getTokenFor w4 (UrlString "https://ex/token")
    = (w4, Returned (S (length (heap initial)))) ∧
    length (heap initial) ≠ S (length (heap initial)).
Proof.
  apply (getTokenFor_after_overlapping_calls initial
           (UrlString "https://ex/token") "tok-1" "tok-2").
  reflexivity.
Defined.

(** X20.  In every lifecycle, that is when every call is awaited before the
    next one is made, [getTokenFor( u )] throws
    [cloudservices-token-not-registered] if and only if [u] was never
    successfully registered, neither by [registerTokenUrl] nor as the primary
    endpoint of [init]; otherwise it returns the very token the successful
    registration resolved to. *)
Theorem getTokenFor_registered cfg (o : FetchOutcome) (ops : list Op) (u : TokenUrl) :
  ((getTokenFor (lifecycle cfg o ops).1 u).2 = Threw not_registered ↔
   ¬ ∃ tok, registered (lifecycle cfg o ops).2 u tok) ∧
  (∀ tok, registered (lifecycle cfg o ops).2 u tok →
          getTokenFor (lifecycle cfg o ops).1 u
          = ((lifecycle cfg o ops).1, Returned tok)).
Proof.
  split.
  - unfold getTokenFor.
    destruct (JSMap.get (tokens_of (lifecycle cfg o ops).1) u) as [tok|] eqn:Hg;
      simpl; split.
    + done.
    + intros Hno. destruct Hno. exists tok. by apply lifecycle_registered.
    + intros _ [tok Hreg]. apply lifecycle_registered in Hreg. congruence.
    + done.
  - intros tok Hreg. apply getTokenFor_hit. by apply lifecycle_registered.
Qed.

Lemma getTokenFor_registered_witness :
  getTokenFor
    (lifecycle (Some [CloudServices.CfgTokenUrl (Some (UrlString "https://ex/token"))])
       (FetchOk "tok-1") [OpRegister (UrlCallback 3) (FetchOk "tok-2"); OpDestroy]).1
    (UrlCallback 3)
  = ((lifecycle (Some [CloudServices.CfgTokenUrl (Some (UrlString "https://ex/token"))])
        (FetchOk "tok-1") [OpRegister (UrlCallback 3) (FetchOk "tok-2"); OpDestroy]).1,
     Returned 1).
Proof.
  apply (getTokenFor_registered
           (Some [CloudServices.CfgTokenUrl (Some (UrlString "https://ex/token"))])
           (FetchOk "tok-1") [OpRegister (UrlCallback 3) (FetchOk "tok-2"); OpDestroy]
           (UrlCallback 3)).
  right. simpl. apply list_elem_of_further, list_elem_of_here.
Defined.

(** C5.  [destroy] calls [destroy()] on every token of the map: in any world,
    each value of the map that is a live object is destroyed afterwards; and
    in every lifecycle the primary token, when [init] established one, is
    among them. *)
Theorem destroy_destroys_every_token :
  (∀ (w : World) (tok : TokenRef),
     tok ∈ JSMap.values (tokens_of w) → tok < length (heap w) →
     destroyed (destroy w).1 tok) ∧
  (∀ cfg (o : FetchOutcome) (ops : list Op) (tok : TokenRef),
     CloudServices.token (plugin (lifecycle cfg o ops).1) = Some tok →
     tok ∈ JSMap.values (tokens_of (lifecycle cfg o ops).1) ∧
     destroyed (destroy (lifecycle cfg o ops).1).1 tok).
Proof.
  split.
  - apply destroy_destroyed.
  - intros cfg o ops tok Htok.
    destruct (consistent_lifecycle cfg o ops) as (Hlive & _ & Hprim).
    destruct (Hprim tok Htok) as [u Hu].
    pose proof (JSMap_get_values _ _ _ Hu) as Hin.
    split; [done |]. apply destroy_destroyed; [done | by eapply Hlive].
Qed.

Lemma destroy_destroys_every_token_witness :
  destroyed
    (destroy
       (lifecycle (Some [CloudServices.CfgTokenUrl (Some (UrlString "https://ex/token"))])
          (FetchOk "tok-1") [OpRegister (UrlCallback 3) (FetchOk "tok-2")]).1).1
    1 ∧
  destroyed
    (destroy
       (lifecycle (Some [CloudServices.CfgTokenUrl (Some (UrlString "https://ex/token"))])
          (FetchOk "tok-1") [OpRegister (UrlCallback 3) (FetchOk "tok-2")]).1).1
    0.
Proof.
  destruct destroy_destroys_every_token as [Hall Hprimary]. split.
  - apply Hall.
    + simpl. apply list_elem_of_further, list_elem_of_here.
    + simpl. lia.
  - apply (Hprimary
             (Some [CloudServices.CfgTokenUrl (Some (UrlString "https://ex/token"))])
             (FetchOk "tok-1") [OpRegister (UrlCallback 3) (FetchOk "tok-2")] 0).
    reflexivity.
Defined.

(** C6.  [destroy] is idempotent: a second call returns normally and leaves
    the plugin, every token and the request log exactly as the first call
    left them. *)
Theorem destroy_idempotent (w : World) :
  destroy (destroy w).1 = ((destroy w).1, Returned tt).
Proof.
  unfold destroy; simpl. by rewrite foldl_destroy_idemp.
Qed.

(** C7 (the code departs from it; the defect is the one of C1).  Two
    [registerTokenUrl] calls with URL strings that are equal by value do not
    always resolve to one shared token.  Made one after the other they do:
    the second call finds the entry of the first and resolves to its token.
    But when the second call is made while the first is still suspended, it
    misses the map as well, and the two calls resolve to two different token
    objects, both created for the same URL. *)
Theorem registerTokenUrl_equal_strings_overlapping (w : World) (s1 s2 v1 v2 : string) :
  String.eqb s1 s2 = true →
  JSMap.get (tokens_of w) (UrlString s1) = None →
  (∃ w1,
     registerTokenUrl w (UrlString s1) (FetchOk v1) = (w1, Resolved (length (heap w))) ∧
     registerTokenUrl w1 (UrlString s2) (FetchOk v2) = (w1, Resolved (length (heap w)))) ∧
  (∃ w1 w2 w3 w4,
     registerTokenUrl_start w (UrlString s1) = (w1, Awaiting (length (heap w))) ∧
     registerTokenUrl_start w1 (UrlString s2) = (w2, Awaiting (S (length (heap w)))) ∧
     registerTokenUrl_resume w2 (UrlString s1) (length (heap w)) (FetchOk v1)
     = (w3, Resolved (length (heap w))) ∧
     registerTokenUrl_resume w3 (UrlString s2) (S (length (heap w))) (FetchOk v2)
     = (w4, Resolved (S (length (heap w)))) ∧
     length (heap w) ≠ S (length (heap w)) ∧
     heap w4 !! length (heap w)
     = Some (Token.mk (UrlString s1) (Some v1) Token.VALID false) ∧
     heap w4 !! S (length (heap w))
     = Some (Token.mk (UrlString s2) (Some v2) Token.VALID false)).
Proof.
  intros <-%String.eqb_eq Hfresh. split.
  - eexists. split; [by apply registerTokenUrl_fresh_ok |].
    apply registerTokenUrl_cached; simpl. apply JSMap_get_set_eq.
  - pose proof (registerTokenUrl_start_fresh w _ Hfresh) as E1.
    set (w1 := mkWorld (plugin w)
                 (heap w ++ [Token.mk (UrlString s1) None Token.INITIALIZING false])
                 (requests w ++ [UrlString s1])) in E1.
    pose proof (registerTokenUrl_start_fresh w1 _ Hfresh) as E2.
    assert (length (heap w1) = S (length (heap w))) as Hlen.
    { unfold w1; simpl. rewrite length_app; simpl. lia. }
    rewrite Hlen in E2.
    exists w1, (registerTokenUrl_start w1 (UrlString s1)).1.
    rewrite E2; simpl.
    eexists _, _. split; [exact E1 |]. split; [reflexivity |].
    rewrite !registerTokenUrl_resume_ok; simpl.
    split; [reflexivity |]. split; [reflexivity |]. split; [lia |].
    rewrite <- app_assoc; simpl.
    assert (∀ (f g : Token.t → Token.t) (h : list Token.t) (a b : Token.t),
              alter g (S (length h)) (alter f (length h) (h ++ [a; b]))
              = h ++ [f a; g b]) as Halter.
    { intros f g h a b.
      replace (S (length h)) with (length h + 1) by lia.
      replace (length h) with (length h + 0) at 2 by lia.
      by rewrite alter_app_r, alter_app_r. }
    rewrite Halter; simpl. split.
    + by rewrite list_lookup_middle.
    + replace (S (length (heap w))) with (length (heap w) + 1) by lia.
      by rewrite lookup_app_r, Nat.add_comm, Nat.add_sub by lia.
Qed.

Lemma registerTokenUrl_equal_strings_overlapping_witness :
  (∃ w1,
     registerTokenUrl initial (UrlString "https://ex/token") (FetchOk "tok-1")
     = (w1, Resolved (length (heap initial))) ∧
     registerTokenUrl w1 (UrlString "https://ex/token") (FetchOk "tok-2")
     = (w1, Resolved (length (heap initial)))) ∧
  (∃ w1 w2 w3 w4,
     registerTokenUrl_start initial (UrlString "https://ex/token")
     = (w1, Awaiting (length (heap initial))) ∧
     registerTokenUrl_start w1 (UrlString "https://ex/token")
     = (w2, Awaiting (S (length (heap initial)))) ∧
     registerTokenUrl_resume w2 (UrlString "https://ex/token")
       (length (heap initial)) (FetchOk "tok-1")
     = (w3, Resolved (length (heap initial))) ∧
     registerTokenUrl_resume w3 (UrlString "https://ex/token")
       (S (length (heap initial))) (FetchOk "tok-2")
     = (w4, Resolved (S (length (heap initial)))) ∧
     length (heap initial) ≠ S (length (heap initial)) ∧
     heap w4 !! length (heap initial)
     = Some (Token.mk (UrlString "https://ex/token") (Some "tok-1") Token.VALID false) ∧
     heap w4 !! S (length (heap initial))
     = Some (Token.mk (UrlString "https://ex/token") (Some "tok-2") Token.VALID false)).
Proof.
  apply (registerTokenUrl_equal_strings_overlapping initial
           "https://ex/token" "https://ex/token" "tok-1" "tok-2").
  - reflexivity.
  - reflexivity.
Defined.

(** C8.  When no token URL is configured, [init] resolves, leaves the primary
    token [null], adds nothing to the map, creates no token and issues no
    request. *)
Theorem init_without_tokenUrl (w : World) cfg (o : FetchOutcome) :
  CloudServices.tokenUrl (plugin w) = None →
  (∀ u, CloudServices.CfgTokenUrl (Some u) ∉ default [] cfg) →
  ∃ w', init w cfg o = (w', Resolved tt) ∧
        CloudServices.token (plugin w') = None ∧
        tokens_of w' = tokens_of w ∧
        heap w' = heap w ∧
        requests w' = requests w.
Proof.
  intros Hnone Hcfg.
  pose proof (configure_tokenUrl_absent _ _ Hnone Hcfg) as Hu.
  eexists. split.
  - apply init_degraded. unfold primary_endpoint. by rewrite Hu.
  - simpl. by rewrite configure_tokens.
Qed.

Lemma init_without_tokenUrl_witness :
  ∃ w', init initial (Some [CloudServices.CfgUploadUrl (Some "https://ex/upload")]) FetchFail
          = (w', Resolved tt) ∧
        CloudServices.token (plugin w') = None ∧
        tokens_of w' = tokens_of initial ∧
        heap w' = heap initial ∧
        requests w' = requests initial.
Proof.
  apply (init_without_tokenUrl initial
           (Some [CloudServices.CfgUploadUrl (Some "https://ex/upload")]) FetchFail).
  - reflexivity.
  - intros u Hin. simpl in Hin. apply list_elem_of_singleton in Hin. discriminate Hin.
Defined.

(** C9.  [getTokenFor] never changes anything: whether it returns a token or
    throws, the world after the call (the map, the primary token, every
    token object, the request log) is the world before it. *)
Theorem getTokenFor_no_side_effect (w : World) (u : TokenUrl) :
  (getTokenFor w u).1 = w ∧
  ((∃ tok, (getTokenFor w u).2 = Returned tok) ∨
   (getTokenFor w u).2 = Threw not_registered).
Proof.
  unfold getTokenFor. destruct (JSMap.get (tokens_of w) u) as [tok|]; simpl.
  - split; [done |]. left. by exists tok.
  - split; [done |]. by right.
Qed.

(** C10.  A Token that is VALID with value [v] and whose background refresh
    fails is still VALID afterwards, its value is still [v], and no error has
    been surfaced to its holders. *)
Theorem refresh_failure_keeps_value (tk : Token.t) (v : string) :
  Token.state tk = Token.VALID →
  Token.value tk = Some v →
  Token.state (Token.refresh_attempt FetchFail tk).1 = Token.VALID ∧
  Token.value (Token.refresh_attempt FetchFail tk).1 = Some v ∧
  (Token.refresh_attempt FetchFail tk).2 = [].
Proof.
  destruct tk as [u c st rf].
  unfold Token.refresh_attempt, Token.refresh_settled, Token.refresh_trigger,
    Token.value; simpl.
  by intros -> ->.
Qed.

Lemma refresh_failure_keeps_value_witness :
  Token.state
    (Token.refresh_attempt FetchFail
       (Token.init_settled (FetchOk "tok-1")
          (Token.init (Token.create (UrlString "https://ex/token"))))).1
  = Token.VALID ∧
  Token.value
    (Token.refresh_attempt FetchFail
       (Token.init_settled (FetchOk "tok-1")
          (Token.init (Token.create (UrlString "https://ex/token"))))).1
  = Some "tok-1" ∧
  (Token.refresh_attempt FetchFail
     (Token.init_settled (FetchOk "tok-1")
        (Token.init (Token.create (UrlString "https://ex/token"))))).2 = [].
Proof.
  apply (refresh_failure_keeps_value
           (Token.init_settled (FetchOk "tok-1")
              (Token.init (Token.create (UrlString "https://ex/token"))))
           "tok-1").
  - reflexivity.
  - reflexivity.
Defined.

(** * Further properties of the plugin *)

(** ** More on the map and the heap *)

Lemma JSMap_get_set {K V : Type} `{EqDecision K} (m : JSMap.t K V) (k k' : K) (v : V) :
  JSMap.get (JSMap.set m k v) k' = if decide (k = k') then Some v else JSMap.get m k'.
Proof.
  destruct (decide (k = k')) as [<-|Hne].
  - apply JSMap_get_set_eq.
  - by apply JSMap_get_set_ne.
Qed.

(** Setting a key that is absent appends the entry. *)
Lemma JSMap_set_fresh {K V : Type} `{EqDecision K} (m : JSMap.t K V) (k : K) (v : V) :
  JSMap.get m k = None → JSMap.set m k v = m ++ [(k, v)].
Proof.
  induction m as [|[k0 v0] m IH]; simpl; [done |].
  destruct (decide (k0 = k)); [done |]. intros Hg. by rewrite IH.
Qed.

(** Setting again a key that was appended replaces the entry in place. *)
Lemma JSMap_set_last {K V : Type} `{EqDecision K} (m : JSMap.t K V) (k : K) (v v' : V) :
  JSMap.get m k = None → JSMap.set (m ++ [(k, v)]) k v' = m ++ [(k, v')].
Proof.
  induction m as [|[k0 v0] m IH]; simpl.
  - by rewrite decide_True.
  - destruct (decide (k0 = k)); [done |]. intros Hg. by rewrite IH.
Qed.

Lemma JSMap_values_app {K V : Type} (m1 m2 : JSMap.t K V) :
  JSMap.values (m1 ++ m2) = JSMap.values m1 ++ JSMap.values m2.
Proof. unfold JSMap.values. apply map_app. Qed.

Lemma heap_pair_alter_fst (f : Token.t → Token.t) (h : list Token.t) (a b : Token.t) :
  alter f (length h) (h ++ [a; b]) = h ++ [f a; b].
Proof.
  replace (length h) with (length h + 0) by lia.
  by rewrite alter_app_r.
Qed.

Lemma heap_pair_alter_snd (f : Token.t → Token.t) (h : list Token.t) (a b : Token.t) :
  alter f (S (length h)) (h ++ [a; b]) = h ++ [a; f b].
Proof.
  replace (S (length h)) with (length h + 1) by lia.
  by rewrite alter_app_r.
Qed.

Lemma heap_pair_lookup_fst (h : list Token.t) (a b : Token.t) :
  (h ++ [a; b]) !! length h = Some a.
Proof. by rewrite list_lookup_middle. Qed.

Lemma heap_pair_lookup_snd (h : list Token.t) (a b : Token.t) :
  (h ++ [a; b]) !! S (length h) = Some b.
Proof.
  replace (S (length h)) with (length h + 1) by lia.
  by rewrite lookup_app_r, Nat.add_comm, Nat.add_sub by lia.
Qed.

(** ** The configuration *)

Lemma reflects_assign (p : CloudServices.t) (e : CloudServices.ConfigEntry) :
  reflects (CloudServices.assign p e) e.
Proof. by destruct e. Qed.

Lemma reflects_assign_other (p : CloudServices.t) (e e' : CloudServices.ConfigEntry) :
  entry_key e ≠ entry_key e' → reflects p e → reflects (CloudServices.assign p e') e.
Proof. by destruct e, e'. Qed.

Lemma reflects_foldl_other (es : list CloudServices.ConfigEntry)
    (p : CloudServices.t) (e : CloudServices.ConfigEntry) :
  entry_key e ∉ entry_key <$> es → reflects p e →
  reflects (foldl CloudServices.assign p es) e.
Proof.
  revert p. induction es as [|e' es IH]; intros p Hnin Hp; simpl; [done |].
  rewrite fmap_cons in Hnin. apply not_elem_of_cons in Hnin as [Hne Hnin].
  apply IH; [done |]. by apply reflects_assign_other.
Qed.

Lemma reflects_foldl (es : list CloudServices.ConfigEntry)
    (p : CloudServices.t) (e : CloudServices.ConfigEntry) :
  NoDup (entry_key <$> es) → e ∈ es →
  reflects (foldl CloudServices.assign p es) e.
Proof.
  revert p. induction es as [|e' es IH]; intros p Hnd Hin; simpl.
  - by apply not_elem_of_nil in Hin.
  - rewrite fmap_cons in Hnd. apply NoDup_cons in Hnd as [Hnin Hnd].
    apply elem_of_cons in Hin as [-> | Hin].
    + apply reflects_foldl_other; [done | apply reflects_assign].
    + by apply IH.
Qed.

(** Whatever becomes of the token, [init] leaves the four configuration
    fields as the copying loop set them. *)
Lemma init_config_fields (w : World) cfg (o : FetchOutcome)
    (e : CloudServices.ConfigEntry) :
  reflects (configure (plugin w) cfg) e → reflects (plugin (init w cfg o).1) e.
Proof.
  intros He.
  destruct (primary_endpoint (configure (plugin w) cfg)) as [u|] eqn:Hp.
  - destruct o as [v|].
    + rewrite (init_ok _ _ _ _ Hp). by destruct e.
    + by rewrite (init_fail _ _ _ Hp).
  - rewrite (init_degraded _ _ _ Hp). by destruct e.
Qed.

Lemma primary_endpoint_truthy (p : CloudServices.t) (u : TokenUrl) :
  CloudServices.tokenUrl p = Some u → truthy u = true → primary_endpoint p = Some u.
Proof. unfold primary_endpoint. by intros -> ->. Qed.

(** ** [init] *)

(** X1.  When the configured token URL is truthy and its request succeeds,
    [init] resolves; it has created exactly one new token, issued exactly one
    request, to that URL; the new token is the primary token, holds the
    delivered value, and [getTokenFor] finds it under the configured URL. *)
Theorem init_establishes_primary (w : World) cfg (u : TokenUrl) (v : string) :
  CloudServices.tokenUrl (configure (plugin w) cfg) = Some u →
  truthy u = true →
  ∃ w', init w cfg (FetchOk v) = (w', Resolved tt) ∧
        CloudServices.token (plugin w') = Some (length (heap w)) ∧
        getTokenFor w' u = (w', Returned (length (heap w))) ∧
        heap w' = heap w ++ [Token.mk u (Some v) Token.VALID false] ∧
        requests w' = requests w ++ [u].
Proof.
  intros Hu Ht. pose proof (primary_endpoint_truthy _ _ Hu Ht) as Hp.
  eexists. split; [by apply init_ok |]. split; [done |].
  split; [| done]. apply getTokenFor_hit; simpl. apply JSMap_get_set_eq.
Qed.

Lemma init_establishes_primary_witness :
  ∃ w', init initial
          (Some [CloudServices.CfgTokenUrl (Some (UrlCallback 5))]) (FetchOk "tok-1")
        = (w', Resolved tt) ∧
        CloudServices.token (plugin w') = Some (length (heap initial)) ∧
        getTokenFor w' (UrlCallback 5) = (w', Returned (length (heap initial))) ∧
        heap w' = heap initial ++ [Token.mk (UrlCallback 5) (Some "tok-1") Token.VALID false] ∧
        requests w' = requests initial ++ [UrlCallback 5].
Proof.
  apply (init_establishes_primary initial
           (Some [CloudServices.CfgTokenUrl (Some (UrlCallback 5))])
           (UrlCallback 5) "tok-1").
  - reflexivity.
  - reflexivity.
Defined.

(** X2.  An empty string as token URL counts as no token URL: [init]
    resolves with the primary token [null] and creates no token, issues no
    request and leaves the map as it is, whatever the transport would have
    answered. *)
Theorem init_empty_tokenUrl (w : World) cfg (o : FetchOutcome) :
  CloudServices.tokenUrl (configure (plugin w) cfg) = Some (UrlString "") →
  ∃ w', init w cfg o = (w', Resolved tt) ∧
        CloudServices.token (plugin w') = None ∧
        CloudServices.tokenUrl (plugin w') = Some (UrlString "") ∧
        tokens_of w' = tokens_of w ∧
        heap w' = heap w ∧
        requests w' = requests w.
Proof.
  intros Hu. eexists. split.
  - apply init_degraded. unfold primary_endpoint. by rewrite Hu.
  - simpl. by rewrite configure_tokens.
Qed.

Lemma init_empty_tokenUrl_witness :
  ∃ w', init initial (Some [CloudServices.CfgTokenUrl (Some (UrlString ""))]) (FetchOk "tok-1")
        = (w', Resolved tt) ∧
        CloudServices.token (plugin w') = None ∧
        CloudServices.tokenUrl (plugin w') = Some (UrlString "") ∧
        tokens_of w' = tokens_of initial ∧
        heap w' = heap initial ∧
        requests w' = requests initial.
Proof.
  apply (init_empty_tokenUrl initial
           (Some [CloudServices.CfgTokenUrl (Some (UrlString ""))]) (FetchOk "tok-1")).
  reflexivity.
Defined.

(** X3.  When the configured token URL is truthy and its request fails,
    [init] rejects.  The primary token and the map are as before, so every
    [getTokenFor] answers as before; the configuration has been copied all
    the same, [tokenUrl] included. *)
Theorem init_failure_keeps_registry (w : World) cfg (u : TokenUrl) :
  CloudServices.tokenUrl (configure (plugin w) cfg) = Some u →
  truthy u = true →
  ∃ w', init w cfg FetchFail = (w', Rejected InitializationFailure) ∧
        CloudServices.token (plugin w') = CloudServices.token (plugin w) ∧
        tokens_of w' = tokens_of w ∧
        CloudServices.tokenUrl (plugin w') = Some u ∧
        (∀ u', (getTokenFor w' u').2 = (getTokenFor w u').2).
Proof.
  intros Hu Ht. pose proof (primary_endpoint_truthy _ _ Hu Ht) as Hp.
  eexists. split; [by apply init_fail |]. simpl.
  rewrite configure_token, configure_tokens. repeat split; try done.
  intros u'. unfold getTokenFor; simpl. rewrite configure_tokens.
  by destruct (JSMap.get (tokens_of w) u').
Qed.

Lemma init_failure_keeps_registry_witness :
  ∃ w', init initial (Some [CloudServices.CfgTokenUrl (Some (UrlString "https://ex/token"))])
          FetchFail
        = (w', Rejected InitializationFailure) ∧
        CloudServices.token (plugin w') = CloudServices.token (plugin initial) ∧
        tokens_of w' = tokens_of initial ∧
        CloudServices.tokenUrl (plugin w') = Some (UrlString "https://ex/token") ∧
        (∀ u', (getTokenFor w' u').2 = (getTokenFor initial u').2).
Proof.
  apply (init_failure_keeps_registry initial
           (Some [CloudServices.CfgTokenUrl (Some (UrlString "https://ex/token"))])
           (UrlString "https://ex/token")).
  - reflexivity.
  - reflexivity.
Defined.

(** X4.  [init] copies the options onto the instance in all of its outcomes
    (degraded, resolved, rejected): every entry of the options object is
    afterwards the value of the field of the same name, and a field whose
    name is not among the options keeps the value it had. *)
Theorem init_copies_options (w : World) (es : list CloudServices.ConfigEntry)
    (o : FetchOutcome) (e : CloudServices.ConfigEntry) :
  NoDup (entry_key <$> es) →
  (e ∈ es → reflects (plugin (init w (Some es) o).1) e) ∧
  (entry_key e ∉ entry_key <$> es → reflects (plugin w) e →
   reflects (plugin (init w (Some es) o).1) e).
Proof.
  intros Hnd. split.
  - intros Hin. apply init_config_fields. by apply reflects_foldl.
  - intros Hnin Hw. apply init_config_fields. by apply reflects_foldl_other.
Qed.

Lemma init_copies_options_witness :
  reflects
    (plugin (init initial
               (Some [CloudServices.CfgUploadUrl (Some "https://ex/upload");
                      CloudServices.CfgTokenUrl (Some (UrlString "https://ex/token"))])
               FetchFail).1)
    (CloudServices.CfgUploadUrl (Some "https://ex/upload")) ∧
  reflects
    (plugin (init initial
               (Some [CloudServices.CfgUploadUrl (Some "https://ex/upload");
                      CloudServices.CfgTokenUrl (Some (UrlString "https://ex/token"))])
               FetchFail).1)
    (CloudServices.CfgBundleVersion None).
Proof.
  assert (NoDup (entry_key <$>
                   [CloudServices.CfgUploadUrl (Some "https://ex/upload");
                    CloudServices.CfgTokenUrl (Some (UrlString "https://ex/token"))]))
    as Hnd.
  { simpl. apply NoDup_cons. split.
    - intros Hin. apply list_elem_of_singleton in Hin. discriminate Hin.
    - apply NoDup_singleton. }
  split.
  - destruct (init_copies_options initial _ FetchFail
                (CloudServices.CfgUploadUrl (Some "https://ex/upload")) Hnd)
      as [Hpresent _].
    apply Hpresent. apply list_elem_of_here.
  - destruct (init_copies_options initial _ FetchFail
                (CloudServices.CfgBundleVersion None) Hnd)
      as [_ Habsent].
    apply Habsent.
    + simpl. intros Hin.
      apply elem_of_cons in Hin as [Hin | Hin]; [discriminate Hin |].
      apply list_elem_of_singleton in Hin. discriminate Hin.
    + reflexivity.
Defined.

(** ** [registerTokenUrl] *)

(** X5.  After [init] has established the primary token for a URL, a
    feature that registers the same URL gets the primary token itself: the
    call resolves to it and the world is untouched, so no second token is
    created and no second request is issued. *)
Theorem registerTokenUrl_reuses_primary (w : World) cfg (u : TokenUrl)
    (v : string) (o : FetchOutcome) :
  CloudServices.tokenUrl (configure (plugin w) cfg) = Some u →
  truthy u = true →
  ∃ tok, CloudServices.token (plugin (init w cfg (FetchOk v)).1) = Some tok ∧
         registerTokenUrl (init w cfg (FetchOk v)).1 u o
         = ((init w cfg (FetchOk v)).1, Resolved tok).
Proof.
  intros Hu Ht. pose proof (primary_endpoint_truthy _ _ Hu Ht) as Hp.
  rewrite (init_ok _ _ _ _ Hp); simpl.
  exists (length (heap w)). split; [done |].
  apply registerTokenUrl_cached; simpl. apply JSMap_get_set_eq.
Qed.

Lemma registerTokenUrl_reuses_primary_witness :
  ∃ tok,
    CloudServices.token
      (plugin (init initial
                 (Some [CloudServices.CfgTokenUrl (Some (UrlString "https://ex/token"))])
                 (FetchOk "tok-1")).1) = Some tok ∧
    registerTokenUrl
      (init initial
         (Some [CloudServices.CfgTokenUrl (Some (UrlString "https://ex/token"))])
         (FetchOk "tok-1")).1
      (UrlString "https://ex/token") FetchFail
    = ((init initial
          (Some [CloudServices.CfgTokenUrl (Some (UrlString "https://ex/token"))])
          (FetchOk "tok-1")).1,
       Resolved tok).
Proof.
  apply (registerTokenUrl_reuses_primary initial
           (Some [CloudServices.CfgTokenUrl (Some (UrlString "https://ex/token"))])
           (UrlString "https://ex/token") "tok-1" FetchFail).
  - reflexivity.
  - reflexivity.
Defined.

(** X6.  [registerTokenUrl( u )], however it ends, never changes the primary
    token or a configuration field, never changes what the map holds for
    another identity, and never touches a token object that existed before
    the call: the heap only grows at its end. *)
Theorem registerTokenUrl_frame (w : World) (u : TokenUrl) (o : FetchOutcome) :
  CloudServices.token (plugin (registerTokenUrl w u o).1)
    = CloudServices.token (plugin w) ∧
  (∀ e, reflects (plugin w) e → reflects (plugin (registerTokenUrl w u o).1) e) ∧
  (∀ u', u' ≠ u →
     JSMap.get (tokens_of (registerTokenUrl w u o).1) u' = JSMap.get (tokens_of w) u') ∧
  (∃ new, heap (registerTokenUrl w u o).1 = heap w ++ new).
Proof.
  destruct (registerTokenUrl_cases w u o)
    as [(tok0 & Hhit & E) | [(v & _ & Hfresh & E) | (_ & Hfresh & E)]];
    rewrite E; simpl.
  - repeat split; try done. exists []. by rewrite app_nil_r.
  - split; [done |]. split; [by intros []|]. split; [| by eexists].
    intros u' Hne. by apply JSMap_get_set_ne.
  - repeat split; try done. by eexists.
Qed.

Lemma registerTokenUrl_frame_witness :
  JSMap.get
    (tokens_of (registerTokenUrl
                  (registerTokenUrl initial (UrlCallback 1) (FetchOk "tok-1")).1
                  (UrlCallback 2) (FetchOk "tok-2")).1)
    (UrlCallback 1)
  = JSMap.get
      (tokens_of (registerTokenUrl initial (UrlCallback 1) (FetchOk "tok-1")).1)
      (UrlCallback 1).
Proof.
  destruct (registerTokenUrl_frame
              (registerTokenUrl initial (UrlCallback 1) (FetchOk "tok-1")).1
              (UrlCallback 2) (FetchOk "tok-2")) as (_ & _ & Hother & _).
  apply Hother. discriminate.
Defined.

(** X7.  [registerTokenUrl( u )] rejects exactly when [u] is not in the map
    and the request of the new token fails; the rejection is then the
    failure of the initialization.  In particular the error of
    [getTokenFor], [cloudservices-token-not-registered], never comes out of
    [registerTokenUrl], although the method calls [getTokenFor]. *)
Theorem registerTokenUrl_rejects_iff (w : World) (u : TokenUrl) (o : FetchOutcome)
    (e : Error) :
  (registerTokenUrl w u o).2 = Rejected e ↔
  JSMap.get (tokens_of w) u = None ∧ o = FetchFail ∧ e = InitializationFailure.
Proof.
  destruct (registerTokenUrl_cases w u o)
    as [(tok0 & Hhit & E) | [(v & Ho & Hfresh & E) | (Ho & Hfresh & E)]];
    rewrite E; simpl; split.
  - done.
  - intros (Hg & _). congruence.
  - done.
  - intros (_ & Hf & _). congruence.
  - by intros [= <-].
  - by intros (_ & _ & ->).
Qed.

Lemma registerTokenUrl_rejects_iff_witness :
  (registerTokenUrl initial (UrlString "https://ex/token") FetchFail).2
  = Rejected InitializationFailure.
Proof.
  apply (registerTokenUrl_rejects_iff initial (UrlString "https://ex/token")
           FetchFail InitializationFailure).
  repeat split.
Defined.

(** ** Lifecycles *)

(** X8.  In every lifecycle the successful registrations pair identities and
    tokens one to one: all successful registrations of one identity, however
    many features made them, resolved to the same token, and registrations
    of different identities resolved to different tokens. *)
Theorem lifecycle_registrations_one_to_one cfg (o : FetchOutcome) (ops : list Op)
    (u1 u2 : TokenUrl) (t1 t2 : TokenRef) :
  registered (lifecycle cfg o ops).2 u1 t1 →
  registered (lifecycle cfg o ops).2 u2 t2 →
  (u1 = u2 ↔ t1 = t2).
Proof.
  intros H1%lifecycle_registered H2%lifecycle_registered.
  destruct (consistent_lifecycle cfg o ops) as (_ & Hinj & _). split.
  - intros ->. congruence.
  - intros ->. by apply (Hinj u1 u2 t2).
Qed.

Lemma lifecycle_registrations_one_to_one_witness :
  UrlCallback 3 = UrlCallback 3 ↔ 1 = 1.
Proof.
  apply (lifecycle_registrations_one_to_one
           (Some [CloudServices.CfgTokenUrl (Some (UrlString "https://ex/token"))])
           (FetchOk "tok-1")
           [OpRegister (UrlCallback 3) (FetchOk "tok-2");
            OpRegister (UrlCallback 3) (FetchOk "tok-3")]
           (UrlCallback 3) (UrlCallback 3) 1 1).
  - right. simpl. apply list_elem_of_further, list_elem_of_here.
  - right. simpl. apply list_elem_of_further, list_elem_of_further, list_elem_of_here.
Defined.

(** A property that [init] establishes on a new instance and that
    [registerTokenUrl] and [destroy] keep holds throughout every lifecycle. *)
Lemma lifecycle_invariant (P : World → Prop) :
  (∀ cfg o, P (init initial cfg o).1) →
  (∀ w u o, P w → P (registerTokenUrl w u o).1) →
  (∀ w, P w → P (destroy w).1) →
  ∀ cfg o ops, P (lifecycle cfg o ops).1.
Proof.
  intros Hinit Hreg Hdes cfg o ops. unfold lifecycle.
  pose proof (Hinit cfg o) as H0.
  destruct (init initial cfg o) as [w0 s]; simpl in H0. clear Hinit.
  revert w0 H0. induction ops as [|op ops IH]; intros w0 H0; simpl; [done |].
  destruct (run_op w0 op) as [w' ev] eqn:E1.
  assert (P w') as H'.
  { destruct op as [u o' | u |]; simpl in E1.
    - pose proof (Hreg w0 u o' H0) as Hr.
      destruct (registerTokenUrl w0 u o') as [w'' [tok|e]]; by injection E1 as <- _.
    - unfold getTokenFor in E1.
      destruct (JSMap.get (tokens_of w0) u); by injection E1 as <- _.
    - injection E1 as <- _. by apply Hdes. }
  specialize (IH w' H'). by destruct (run w' ops) as [w'' evs].
Qed.

Lemma initialized_lifecycle cfg (o : FetchOutcome) (ops : list Op) :
  initialized (lifecycle cfg o ops).1.
Proof.
  apply lifecycle_invariant; clear.
  - intros cfg o.
    destruct (primary_endpoint (configure (plugin initial) cfg)) as [u|] eqn:Hp.
    + destruct o as [v|].
      * rewrite (init_ok _ _ _ _ Hp). intros u' tok; simpl.
        destruct (decide (u = u')) as [<-|]; [|done]. intros [= <-].
        eexists. split; [done |]. split; [done | by left].
      * rewrite (init_fail _ _ _ Hp). intros u' tok; simpl.
        by rewrite configure_tokens.
    + rewrite (init_degraded _ _ _ Hp). intros u' tok; simpl.
      by rewrite configure_tokens.
  - intros w u o Hw.
    destruct (registerTokenUrl_cases w u o)
      as [(tok0 & Hhit & E) | [(v & _ & Hfresh & E) | (_ & Hfresh & E)]];
      rewrite E; simpl; [done | |].
    + intros u' tok; simpl. rewrite JSMap_get_set.
      destruct (decide (u = u')) as [<-|Hne].
      * intros [= <-]. rewrite heap_alloc_lookup.
        eexists. split; [done |]. split; [done | by left].
      * intros Hg. destruct (Hw _ _ Hg) as (tk & Htk & Hid & Hst).
        exists tk. split; [|done]. by apply lookup_app_l_Some.
    + intros u' tok Hg; simpl in *.
      destruct (Hw _ _ Hg) as (tk & Htk & Hid & Hst).
      exists tk. split; [|done]. by apply lookup_app_l_Some.
  - intros w Hw u tok Hg; simpl in *.
    destruct (Hw _ _ Hg) as (tk & Htk & Hid & Hst).
    exists (Token.destroy tk).
    rewrite foldl_destroy_lookup, Htk, decide_True by (by eapply JSMap_get_values).
    split; [done |]. split; [done | by right].
Qed.

Lemma values_live_lifecycle cfg (o : FetchOutcome) (ops : list Op) :
  values_live (lifecycle cfg o ops).1.
Proof.
  apply lifecycle_invariant; clear.
  - intros cfg o.
    destruct (primary_endpoint (configure (plugin initial) cfg)) as [u|] eqn:Hp.
    + destruct o as [v|].
      * rewrite (init_ok _ _ _ _ Hp). intros tok; simpl.
        intros ->%list_elem_of_singleton. lia.
      * rewrite (init_fail _ _ _ Hp). intros tok; simpl.
        rewrite configure_tokens; simpl. by intros ?%not_elem_of_nil.
    + rewrite (init_degraded _ _ _ Hp). intros tok; simpl.
      rewrite configure_tokens; simpl. by intros ?%not_elem_of_nil.
  - intros w u o Hw.
    destruct (registerTokenUrl_cases w u o)
      as [(tok0 & Hhit & E) | [(v & _ & Hfresh & E) | (_ & Hfresh & E)]];
      rewrite E; simpl; [done | |].
    + intros tok; simpl. rewrite (JSMap_set_fresh _ _ _ Hfresh), JSMap_values_app.
      rewrite length_app; simpl.
      intros [Hin | ->%list_elem_of_singleton]%elem_of_app; [|lia].
      apply Hw in Hin. lia.
    + intros tok Hin; simpl in *. rewrite length_app; simpl.
      apply Hw in Hin. lia.
  - intros w Hw tok Hin; simpl in *. rewrite foldl_destroy_length. by apply Hw.
Qed.


(** X9.  In every lifecycle, a token that [getTokenFor] can return is a live
    object that was created for the very identity it is returned for, and
    its initialization has completed: it is valid or, after [destroy],
    destroyed, never still waiting for its first value. *)
Theorem getTokenFor_returns_initialized cfg (o : FetchOutcome) (ops : list Op)
    (u : TokenUrl) (tok : TokenRef) :
  (getTokenFor (lifecycle cfg o ops).1 u).2 = Returned tok →
  ∃ tk, heap (lifecycle cfg o ops).1 !! tok = Some tk ∧
        Token.endpointIdentity tk = u ∧
        (Token.state tk = Token.VALID ∨ Token.state tk = Token.DESTROYED).
Proof.
  intros Hret. apply initialized_lifecycle.
  unfold getTokenFor in Hret.
  destruct (JSMap.get (tokens_of (lifecycle cfg o ops).1) u); [|done].
  by injection Hret as ->.
Qed.

Lemma getTokenFor_returns_initialized_witness :
  ∃ tk,
    heap (lifecycle None FetchFail [OpRegister (UrlCallback 3) (FetchOk "tok-1")]).1 !! 0
    = Some tk ∧
    Token.endpointIdentity tk = UrlCallback 3 ∧
    (Token.state tk = Token.VALID ∨ Token.state tk = Token.DESTROYED).
Proof.
  apply (getTokenFor_returns_initialized None FetchFail
           [OpRegister (UrlCallback 3) (FetchOk "tok-1")] (UrlCallback 3) 0).
  reflexivity.
Defined.

(** ** Counting the tokens that are created *)

Lemma occurrences_app (u : TokenUrl) (l1 l2 : list TokenUrl) :
  occurrences u (l1 ++ l2) = occurrences u l1 + occurrences u l2.
Proof. induction l1 as [|x l1 IH]; simpl; [done |]. rewrite IH. lia. Qed.

Lemma rejections_cons (u : TokenUrl) (ev : Event) (evs : list Event) :
  rejections u (ev :: evs) = rejections u [ev] + rejections u evs.
Proof. destruct ev; simpl; lia. Qed.

Lemma newly_registered_trans (w w' w1 : World) (u : TokenUrl) :
  (JSMap.has (tokens_of w) u = true → JSMap.has (tokens_of w') u = true) →
  (JSMap.has (tokens_of w') u = true → JSMap.has (tokens_of w1) u = true) →
  newly_registered w w1 u = newly_registered w w' u + newly_registered w' w1 u.
Proof.
  unfold newly_registered.
  destruct (JSMap.has (tokens_of w) u), (JSMap.has (tokens_of w') u),
    (JSMap.has (tokens_of w1) u); intros H1 H2; simpl;
    first [ lia
          | discriminate (H1 eq_refl)
          | discriminate (H2 eq_refl) ].
Qed.

Lemma run_op_has_mono (w w' : World) (op : Op) (ev : Event) (u : TokenUrl) :
  run_op w op = (w', ev) →
  JSMap.has (tokens_of w) u = true → JSMap.has (tokens_of w') u = true.
Proof.
  intros E [tok Hg]%JSMap_has_get. apply JSMap_has_get. exists tok.
  apply (run_op_tokens _ _ _ _ E). by left.
Qed.

Lemma run_has_mono (ops : list Op) (w w1 : World) (evs : list Event) (u : TokenUrl) :
  run w ops = (w1, evs) →
  JSMap.has (tokens_of w) u = true → JSMap.has (tokens_of w1) u = true.
Proof.
  intros E [tok Hg]%JSMap_has_get. apply JSMap_has_get. exists tok.
  apply (run_tokens _ _ _ _ E). by left.
Qed.

(** [destroy] keeps the identity of every token object. *)
Lemma destroy_identities (w : World) :
  Token.endpointIdentity <$> heap (destroy w).1 = Token.endpointIdentity <$> heap w.
Proof.
  simpl. apply list_eq. intros r.
  rewrite !list_lookup_fmap, foldl_destroy_lookup.
  by destruct (decide (r ∈ JSMap.values (tokens_of w))), (heap w !! r).
Qed.

Lemma run_op_created (w w' : World) (op : Op) (ev : Event) (u : TokenUrl) :
  run_op w op = (w', ev) →
  occurrences u (Token.endpointIdentity <$> heap w')
  = occurrences u (Token.endpointIdentity <$> heap w)
    + rejections u [ev] + newly_registered w w' u.
Proof.
  unfold newly_registered. destruct op as [u0 o | u0 |]; simpl.
  - destruct (registerTokenUrl_cases w u0 o)
      as [(tok0 & Hhit & E) | [(v & _ & Hfresh & E) | (_ & Hfresh & E)]];
      rewrite E; intros [= <- <-]; simpl.
    + destruct (JSMap.has (tokens_of w) u); lia.
    + rewrite fmap_app, occurrences_app; simpl.
      unfold JSMap.has. rewrite JSMap_get_set.
      destruct (decide (u0 = u)) as [->|Hne].
      * rewrite Hfresh. lia.
      * destruct (JSMap.get (tokens_of w) u); lia.
    + rewrite fmap_app, occurrences_app; simpl.
      destruct (decide (u0 = u)), (JSMap.has (tokens_of w) u); lia.
  - unfold getTokenFor.
    destruct (JSMap.get (tokens_of w) u0); intros [= <- <-]; simpl;
      destruct (JSMap.has (tokens_of w) u); lia.
  - intros [= <- <-]. pose proof (destroy_identities w) as Hd.
    simpl in Hd |- *. rewrite Hd.
    destruct (JSMap.has (tokens_of w) u); lia.
Qed.

(** X11.  Over any sequence of awaited calls, the token objects created for
    an identity [u] are accounted for exactly: their number grows by one for
    every rejected [registerTokenUrl( u )], plus one if [u] was not in the
    map at the start and is in it at the end.  A registration of an identity
    that is already in the map, a lookup and [destroy] create no token. *)
Theorem run_token_creation_accounting (ops : list Op) (w : World) (u : TokenUrl) :
  occurrences u (Token.endpointIdentity <$> heap (run w ops).1)
  = occurrences u (Token.endpointIdentity <$> heap w)
    + rejections u (run w ops).2
    + newly_registered w (run w ops).1 u.
Proof.
  revert w. induction ops as [|op ops IH]; intros w; simpl.
  - unfold newly_registered. destruct (JSMap.has (tokens_of w) u); lia.
  - destruct (run_op w op) as [w' ev] eqn:E1.
    specialize (IH w').
    destruct (run w' ops) as [w1 evs] eqn:E2; cbn [fst snd] in *.
    rewrite rejections_cons, IH, (run_op_created _ _ _ _ u E1).
    rewrite (newly_registered_trans w w' w1).
    + lia.
    + by eapply run_op_has_mono.
    + by eapply run_has_mono.
Qed.

(** ** [destroy] *)

(** X12.  [destroy] changes nothing but the token objects of the map: the
    plugin record (configuration, primary token, map) and the request log
    are as before, no object is added or removed, an object that is not a
    value of the map is left exactly as it was, and every object keeps its
    identity. *)
Theorem destroy_frame (w : World) :
  plugin (destroy w).1 = plugin w ∧
  requests (destroy w).1 = requests w ∧
  length (heap (destroy w).1) = length (heap w) ∧
  (∀ r, r ∉ JSMap.values (tokens_of w) → heap (destroy w).1 !! r = heap w !! r) ∧
  (Token.endpointIdentity <$> heap (destroy w).1) = (Token.endpointIdentity <$> heap w).
Proof.
  split; [done |]. split; [done |]. split; [apply foldl_destroy_length |]. split.
  - intros r Hnin; simpl. rewrite foldl_destroy_lookup, decide_False by done.
    by destruct (heap w !! r).
  - simpl. apply list_eq. intros r.
    rewrite !list_lookup_fmap, foldl_destroy_lookup.
    by destruct (decide (r ∈ JSMap.values (tokens_of w))), (heap w !! r).
Qed.

Lemma destroy_frame_witness :
  heap (destroy (registerTokenUrl initial (UrlCallback 1) FetchFail).1).1 !! 0
  = heap (registerTokenUrl initial (UrlCallback 1) FetchFail).1 !! 0.
Proof.
  destruct (destroy_frame (registerTokenUrl initial (UrlCallback 1) FetchFail).1)
    as (_ & _ & _ & Hout & _).
  apply Hout. simpl. apply not_elem_of_nil.
Defined.

(** X13.  A destroyed plugin does not come back to life: in every lifecycle,
    registering again, after [destroy], an identity that was registered
    before resolves to the same, now destroyed token; no new token is
    created and no request is issued. *)
Theorem registerTokenUrl_after_destroy cfg (o : FetchOutcome) (ops : list Op)
    (u : TokenUrl) (tok : TokenRef) (o' : FetchOutcome) :
  registered (lifecycle cfg o ops).2 u tok →
  registerTokenUrl (destroy (lifecycle cfg o ops).1).1 u o'
  = ((destroy (lifecycle cfg o ops).1).1, Resolved tok) ∧
  destroyed (destroy (lifecycle cfg o ops).1).1 tok.
Proof.
  intros Hg%lifecycle_registered. split.
  - by apply registerTokenUrl_cached.
  - destruct (consistent_lifecycle cfg o ops) as (Hlive & _ & _).
    apply destroy_destroyed; [by eapply JSMap_get_values | by eapply Hlive].
Qed.

Lemma registerTokenUrl_after_destroy_witness :
  registerTokenUrl
    (destroy (lifecycle None FetchFail [OpRegister (UrlCallback 3) (FetchOk "tok-1")]).1).1
    (UrlCallback 3) (FetchOk "tok-2")
  = ((destroy (lifecycle None FetchFail [OpRegister (UrlCallback 3) (FetchOk "tok-1")]).1).1,
     Resolved 0) ∧
  destroyed
    (destroy (lifecycle None FetchFail [OpRegister (UrlCallback 3) (FetchOk "tok-1")]).1).1
    0.
Proof.
  apply (registerTokenUrl_after_destroy None FetchFail
           [OpRegister (UrlCallback 3) (FetchOk "tok-1")] (UrlCallback 3) 0
           (FetchOk "tok-2")).
  right. simpl. apply list_elem_of_further, list_elem_of_here.
Defined.

(** ** Calls that overlap *)

(** Two calls for identities that are not in the map, issued one right after
    the other: both are suspended, each on a token of its own. *)
Lemma two_calls_suspended_fresh (w : World) (u1 u2 : TokenUrl) :
  JSMap.get (tokens_of w) u1 = None →
  JSMap.get (tokens_of w) u2 = None →
  (registerTokenUrl_start w u1).2 = Awaiting (length (heap w)) ∧
  (registerTokenUrl_start (registerTokenUrl_start w u1).1 u2).2
  = Awaiting (S (length (heap w))) ∧
  two_calls_suspended w u1 u2
  = mkWorld (plugin w)
      (heap w ++ [Token.mk u1 None Token.INITIALIZING false;
                  Token.mk u2 None Token.INITIALIZING false])
      (requests w ++ [u1; u2]).
Proof.
  intros H1 H2. unfold two_calls_suspended.
  rewrite (registerTokenUrl_start_fresh _ _ H1); simpl.
  rewrite registerTokenUrl_start_fresh by done; simpl.
  rewrite length_app, <- !app_assoc; simpl.
  by rewrite Nat.add_1_r.
Qed.

(** Calls that are not registrations of [u] never put [u] in the map. *)
Lemma run_without_registration (ops : list Op) (w : World) (u : TokenUrl) :
  (∀ o, OpRegister u o ∉ ops) →
  JSMap.get (tokens_of w) u = None →
  JSMap.get (tokens_of (run w ops).1) u = None.
Proof.
  revert w. induction ops as [|op ops IH]; intros w Hops Hg; simpl; [done |].
  destruct (run_op w op) as [w' ev] eqn:E1.
  assert (JSMap.get (tokens_of w') u = None) as Hg'.
  { destruct op as [u0 o | u0 |]; simpl in E1.
    - assert (u0 ≠ u) as Hne.
      { intros ->. apply (Hops o). apply list_elem_of_here. }
      destruct (registerTokenUrl_cases w u0 o)
        as [(tok0 & Hhit & E) | [(v & _ & Hfresh & E) | (_ & Hfresh & E)]];
        rewrite E in E1; injection E1 as <- _; simpl; [done | | done].
      by rewrite JSMap_get_set_ne.
    - unfold getTokenFor in E1.
      destruct (JSMap.get (tokens_of w) u0); by injection E1 as <- _.
    - by injection E1 as <- _. }
  assert (∀ o, OpRegister u o ∉ ops) as Hops'.
  { intros o Hin. apply (Hops o). by apply list_elem_of_further. }
  specialize (IH w' Hops' Hg').
  by destruct (run w' ops) as [w1 evs].
Qed.

(** X14.  A pending registration is not visible: once
    [registerTokenUrl( u )] has been called for an identity that is not in
    the map and is suspended at its [await], the request is on its way but
    the plugin record is unchanged, so [getTokenFor( u )] throws; and it goes
    on throwing through any awaited calls that are not registrations of [u]
    (registrations of other identities, lookups, [destroy]). *)
Theorem pending_registration_not_visible (w : World) (u : TokenUrl) (ops : list Op) :
  JSMap.get (tokens_of w) u = None →
  (∀ o, OpRegister u o ∉ ops) →
  ∃ tok, (registerTokenUrl_start w u).2 = Awaiting tok ∧
         plugin (registerTokenUrl_start w u).1 = plugin w ∧
         requests (registerTokenUrl_start w u).1 = requests w ++ [u] ∧
         (getTokenFor (registerTokenUrl_start w u).1 u).2 = Threw not_registered ∧
         (getTokenFor (run (registerTokenUrl_start w u).1 ops).1 u).2
         = Threw not_registered.
Proof.
  intros Hfresh Hops.
  pose proof (run_without_registration ops (registerTokenUrl_start w u).1 u Hops) as Hrun.
  rewrite (registerTokenUrl_start_fresh _ _ Hfresh) in *; simpl in *.
  specialize (Hrun Hfresh).
  eexists. repeat split.
  - unfold getTokenFor; simpl. by rewrite Hfresh.
  - unfold getTokenFor. by rewrite Hrun.
Qed.

Lemma pending_registration_not_visible_witness :
  ∃ tok, (registerTokenUrl_start initial (UrlCallback 1)).2 = Awaiting tok ∧
         plugin (registerTokenUrl_start initial (UrlCallback 1)).1 = plugin initial ∧
         requests (registerTokenUrl_start initial (UrlCallback 1)).1
         = requests initial ++ [UrlCallback 1] ∧
         (getTokenFor (registerTokenUrl_start initial (UrlCallback 1)).1 (UrlCallback 1)).2
         = Threw not_registered ∧
         (getTokenFor
            (run (registerTokenUrl_start initial (UrlCallback 1)).1
               [OpRegister (UrlCallback 2) (FetchOk "tok-2"); OpDestroy;
                OpGetTokenFor (UrlCallback 1)]).1
            (UrlCallback 1)).2
         = Threw not_registered.
Proof.
  apply (pending_registration_not_visible initial (UrlCallback 1)
           [OpRegister (UrlCallback 2) (FetchOk "tok-2"); OpDestroy;
            OpGetTokenFor (UrlCallback 1)]).
  - reflexivity.
  - intros o Hin.
    apply elem_of_cons in Hin as [Hin | Hin]; [discriminate Hin |].
    apply elem_of_cons in Hin as [Hin | Hin]; [discriminate Hin |].
    apply list_elem_of_singleton in Hin. discriminate Hin.
Defined.

(** X15.  Overlapping registrations of two different identities do not
    disturb each other: whichever of the two promises settles first, both
    calls resolve to their own token, the token objects and the request log
    end up the same, and every identity is looked up to the same token. *)
Theorem overlapping_calls_distinct_identities (w : World) (u1 u2 : TokenUrl)
    (v1 v2 : string) :
  u1 ≠ u2 →
  JSMap.get (tokens_of w) u1 = None →
  JSMap.get (tokens_of w) u2 = None →
  ∃ wa wb,
    registerTokenUrl_resume
      (registerTokenUrl_resume (two_calls_suspended w u1 u2)
         u1 (length (heap w)) (FetchOk v1)).1
      u2 (S (length (heap w))) (FetchOk v2)
    = (wa, Resolved (S (length (heap w)))) ∧
    registerTokenUrl_resume
      (registerTokenUrl_resume (two_calls_suspended w u1 u2)
         u2 (S (length (heap w))) (FetchOk v2)).1
      u1 (length (heap w)) (FetchOk v1)
    = (wb, Resolved (length (heap w))) ∧
    heap wa = heap wb ∧
    heap wa = heap w ++ [Token.mk u1 (Some v1) Token.VALID false;
                         Token.mk u2 (Some v2) Token.VALID false] ∧
    requests wa = requests wb ∧
    (∀ u, JSMap.get (tokens_of wa) u = JSMap.get (tokens_of wb) u) ∧
    JSMap.get (tokens_of wa) u1 = Some (length (heap w)) ∧
    JSMap.get (tokens_of wa) u2 = Some (S (length (heap w))).
Proof.
  intros Hne H1 H2.
  destruct (two_calls_suspended_fresh w u1 u2 H1 H2) as (_ & _ & ->).
  rewrite !registerTokenUrl_resume_ok; simpl.
  rewrite heap_pair_alter_fst, heap_pair_alter_snd; simpl.
  rewrite heap_pair_alter_snd, heap_pair_alter_fst; simpl.
  eexists _, _. split; [reflexivity |]. split; [reflexivity |]. simpl.
  split; [done |]. split; [done |]. split; [done |]. split; [| split].
  - intros u. rewrite !JSMap_get_set.
    destruct (decide (u2 = u)) as [<-|]; [|done].
    by rewrite decide_False.
  - rewrite JSMap_get_set_ne by done. apply JSMap_get_set_eq.
  - apply JSMap_get_set_eq.
Qed.

Lemma overlapping_calls_distinct_identities_witness :
  ∃ wa wb,
    registerTokenUrl_resume
      (registerTokenUrl_resume (two_calls_suspended initial (UrlCallback 1) (UrlCallback 2))
         (UrlCallback 1) (length (heap initial)) (FetchOk "tok-1")).1
      (UrlCallback 2) (S (length (heap initial))) (FetchOk "tok-2")
    = (wa, Resolved (S (length (heap initial)))) ∧
    registerTokenUrl_resume
      (registerTokenUrl_resume (two_calls_suspended initial (UrlCallback 1) (UrlCallback 2))
         (UrlCallback 2) (S (length (heap initial))) (FetchOk "tok-2")).1
      (UrlCallback 1) (length (heap initial)) (FetchOk "tok-1")
    = (wb, Resolved (length (heap initial))) ∧
    heap wa = heap wb ∧
    heap wa = heap initial ++ [Token.mk (UrlCallback 1) (Some "tok-1") Token.VALID false;
                               Token.mk (UrlCallback 2) (Some "tok-2") Token.VALID false] ∧
    requests wa = requests wb ∧
    (∀ u, JSMap.get (tokens_of wa) u = JSMap.get (tokens_of wb) u) ∧
    JSMap.get (tokens_of wa) (UrlCallback 1) = Some (length (heap initial)) ∧
    JSMap.get (tokens_of wa) (UrlCallback 2) = Some (S (length (heap initial))).
Proof.
  apply (overlapping_calls_distinct_identities initial (UrlCallback 1) (UrlCallback 2)
           "tok-1" "tok-2").
  - discriminate.
  - reflexivity.
  - reflexivity.
Defined.

(** X16.  What two overlapping registrations of one identity cost, in any
    lifecycle: when both requests succeed, the first call first, the map
    keeps the second call's token only, so a following [destroy] destroys
    the second token and passes over the first, which stays valid with its
    value. *)
Theorem overlapping_calls_leave_orphan cfg (o : FetchOutcome) (ops : list Op)
    (u : TokenUrl) (v1 v2 : string) :
  JSMap.get (tokens_of (lifecycle cfg o ops).1) u = None →
  ∃ w4,
    (registerTokenUrl_start (lifecycle cfg o ops).1 u).2
    = Awaiting (length (heap (lifecycle cfg o ops).1)) ∧
    (registerTokenUrl_start (registerTokenUrl_start (lifecycle cfg o ops).1 u).1 u).2
    = Awaiting (S (length (heap (lifecycle cfg o ops).1))) ∧
    registerTokenUrl_resume
      (registerTokenUrl_resume (two_calls_suspended (lifecycle cfg o ops).1 u u)
         u (length (heap (lifecycle cfg o ops).1)) (FetchOk v1)).1
      u (S (length (heap (lifecycle cfg o ops).1))) (FetchOk v2)
    = (w4, Resolved (S (length (heap (lifecycle cfg o ops).1)))) ∧
    heap (destroy w4).1 !! length (heap (lifecycle cfg o ops).1)
    = Some (Token.mk u (Some v1) Token.VALID false) ∧
    destroyed (destroy w4).1 (S (length (heap (lifecycle cfg o ops).1))).
Proof.
  pose proof (values_live_lifecycle cfg o ops) as Hlive.
  generalize dependent (lifecycle cfg o ops).1. intros w Hlive Hfresh.
  destruct (two_calls_suspended_fresh w u u Hfresh Hfresh) as (E1 & E2 & ->).
  rewrite !registerTokenUrl_resume_ok; simpl.
  rewrite heap_pair_alter_fst, heap_pair_alter_snd; simpl.
  rewrite (JSMap_set_fresh _ _ _ Hfresh), (JSMap_set_last _ _ _ _ Hfresh).
  eexists. split; [exact E1 |]. split; [exact E2 |]. split; [reflexivity |].
  unfold destroyed; simpl.
  rewrite !foldl_destroy_lookup, heap_pair_lookup_fst, heap_pair_lookup_snd.
  rewrite JSMap_values_app; simpl. split.
  - rewrite decide_False; [done |].
    intros [Hin | Hin%list_elem_of_singleton]%elem_of_app; [|lia].
    apply Hlive in Hin. lia.
  - rewrite decide_True by (apply elem_of_app; right; apply list_elem_of_here).
    by eexists.
Qed.

Lemma overlapping_calls_leave_orphan_witness :
  ∃ w4,
    (registerTokenUrl_start (lifecycle None FetchFail []).1 (UrlCallback 1)).2
    = Awaiting (length (heap (lifecycle None FetchFail []).1)) ∧
    (registerTokenUrl_start
       (registerTokenUrl_start (lifecycle None FetchFail []).1 (UrlCallback 1)).1
       (UrlCallback 1)).2
    = Awaiting (S (length (heap (lifecycle None FetchFail []).1))) ∧
    registerTokenUrl_resume
      (registerTokenUrl_resume
         (two_calls_suspended (lifecycle None FetchFail []).1 (UrlCallback 1) (UrlCallback 1))
         (UrlCallback 1) (length (heap (lifecycle None FetchFail []).1)) (FetchOk "tok-1")).1
      (UrlCallback 1) (S (length (heap (lifecycle None FetchFail []).1))) (FetchOk "tok-2")
    = (w4, Resolved (S (length (heap (lifecycle None FetchFail []).1)))) ∧
    heap (destroy w4).1 !! length (heap (lifecycle None FetchFail []).1)
    = Some (Token.mk (UrlCallback 1) (Some "tok-1") Token.VALID false) ∧
    destroyed (destroy w4).1 (S (length (heap (lifecycle None FetchFail []).1))).
Proof.
  apply (overlapping_calls_leave_orphan None FetchFail [] (UrlCallback 1) "tok-1" "tok-2").
  reflexivity.
Defined.

(** X17.  [destroy] does not reach a registration that is still pending: in
    any lifecycle, when [destroy] runs between the call of
    [registerTokenUrl( u )] and the settlement of its request, the call
    still resolves afterwards, and its token enters the map valid, with the
    delivered value, in a plugin that has been destroyed. *)
Theorem destroy_misses_pending_registration cfg (o : FetchOutcome) (ops : list Op)
    (u : TokenUrl) (v : string) :
  JSMap.get (tokens_of (lifecycle cfg o ops).1) u = None →
  ∃ w3,
    (registerTokenUrl_start (lifecycle cfg o ops).1 u).2
    = Awaiting (length (heap (lifecycle cfg o ops).1)) ∧
    registerTokenUrl_resume
      (destroy (registerTokenUrl_start (lifecycle cfg o ops).1 u).1).1
      u (length (heap (lifecycle cfg o ops).1)) (FetchOk v)
    = (w3, Resolved (length (heap (lifecycle cfg o ops).1))) ∧
    getTokenFor w3 u = (w3, Returned (length (heap (lifecycle cfg o ops).1))) ∧
    heap w3 !! length (heap (lifecycle cfg o ops).1)
    = Some (Token.mk u (Some v) Token.VALID false).
Proof.
  pose proof (values_live_lifecycle cfg o ops) as Hlive.
  generalize dependent (lifecycle cfg o ops).1. intros w Hlive Hfresh.
  rewrite (registerTokenUrl_start_fresh _ _ Hfresh); simpl.
  rewrite registerTokenUrl_resume_ok; simpl.
  eexists. split; [reflexivity |]. split; [reflexivity |]. split.
  - apply getTokenFor_hit; simpl. apply JSMap_get_set_eq.
  - simpl. rewrite list_lookup_alter_eq, foldl_destroy_lookup, heap_alloc_lookup.
    rewrite decide_False; [done |].
    intros Hin. apply Hlive in Hin. lia.
Qed.

Lemma destroy_misses_pending_registration_witness :
  ∃ w3,
    (registerTokenUrl_start (lifecycle None FetchFail []).1 (UrlCallback 1)).2
    = Awaiting (length (heap (lifecycle None FetchFail []).1)) ∧
    registerTokenUrl_resume
      (destroy (registerTokenUrl_start (lifecycle None FetchFail []).1 (UrlCallback 1)).1).1
      (UrlCallback 1) (length (heap (lifecycle None FetchFail []).1)) (FetchOk "tok-1")
    = (w3, Resolved (length (heap (lifecycle None FetchFail []).1))) ∧
    getTokenFor w3 (UrlCallback 1)
    = (w3, Returned (length (heap (lifecycle None FetchFail []).1))) ∧
    heap w3 !! length (heap (lifecycle None FetchFail []).1)
    = Some (Token.mk (UrlCallback 1) (Some "tok-1") Token.VALID false).
Proof.
  apply (destroy_misses_pending_registration None FetchFail [] (UrlCallback 1) "tok-1").
  reflexivity.
Defined.

(** X18.  Of two overlapping registrations of one identity the map keeps the
    token of the call whose request settles last: when the second call's
    request succeeds before the first call's, both calls resolve to their
    own token and [getTokenFor] afterwards returns the first call's. *)
Theorem overlapping_calls_last_settlement_wins (w : World) (u : TokenUrl)
    (v1 v2 : string) :
  JSMap.get (tokens_of w) u = None →
  ∃ w3 w4,
    registerTokenUrl_resume (two_calls_suspended w u u)
      u (S (length (heap w))) (FetchOk v2)
    = (w3, Resolved (S (length (heap w)))) ∧
    registerTokenUrl_resume w3 u (length (heap w)) (FetchOk v1)
    = (w4, Resolved (length (heap w))) ∧
    getTokenFor w4 u = (w4, Returned (length (heap w))) ∧
    heap w4 = heap w ++ [Token.mk u (Some v1) Token.VALID false;
                         Token.mk u (Some v2) Token.VALID false].
Proof.
  intros Hfresh.
  destruct (two_calls_suspended_fresh w u u Hfresh Hfresh) as (_ & _ & ->).
  rewrite registerTokenUrl_resume_ok; simpl.
  eexists _, _. split; [reflexivity |].
  rewrite registerTokenUrl_resume_ok; simpl.
  split; [reflexivity |]. split.
  - apply getTokenFor_hit; simpl. apply JSMap_get_set_eq.
  - simpl. by rewrite heap_pair_alter_snd, heap_pair_alter_fst.
Qed.

Lemma overlapping_calls_last_settlement_wins_witness :
  ∃ w3 w4,
    registerTokenUrl_resume (two_calls_suspended initial (UrlCallback 1) (UrlCallback 1))
      (UrlCallback 1) (S (length (heap initial))) (FetchOk "tok-2")
    = (w3, Resolved (S (length (heap initial)))) ∧
    registerTokenUrl_resume w3 (UrlCallback 1) (length (heap initial)) (FetchOk "tok-1")
    = (w4, Resolved (length (heap initial))) ∧
    getTokenFor w4 (UrlCallback 1) = (w4, Returned (length (heap initial))) ∧
    heap w4 = heap initial ++ [Token.mk (UrlCallback 1) (Some "tok-1") Token.VALID false;
                               Token.mk (UrlCallback 1) (Some "tok-2") Token.VALID false].
Proof.
  apply (overlapping_calls_last_settlement_wins initial (UrlCallback 1) "tok-1" "tok-2").
  reflexivity.
Defined.

(** ** The primary token through a lifecycle *)

(** X19.  Throughout every lifecycle the public field [token], when it is
    not [null], is the token of the configured [tokenUrl]: looking that URL
    up with [getTokenFor] returns the very same object, whatever has been
    registered or destroyed since [init]. *)
Theorem primary_token_is_registered cfg (o : FetchOutcome) (ops : list Op)
    (tok : TokenRef) :
  CloudServices.token (plugin (lifecycle cfg o ops).1) = Some tok →
  ∃ u, CloudServices.tokenUrl (plugin (lifecycle cfg o ops).1) = Some u ∧
       getTokenFor (lifecycle cfg o ops).1 u = ((lifecycle cfg o ops).1, Returned tok).
Proof.
  intros Htok.
  enough (∃ u, CloudServices.tokenUrl (plugin (lifecycle cfg o ops).1) = Some u ∧
               JSMap.get (tokens_of (lifecycle cfg o ops).1) u = Some tok)
    as (u & Hu & Hg).
  { exists u. split; [done |]. by apply getTokenFor_hit. }
  revert tok Htok.
  apply (lifecycle_invariant (λ w, ∀ tok,
           CloudServices.token (plugin w) = Some tok →
           ∃ u, CloudServices.tokenUrl (plugin w) = Some u ∧
                JSMap.get (tokens_of w) u = Some tok)); clear.
  - intros cfg o.
    destruct (primary_endpoint (configure (plugin initial) cfg)) as [u|] eqn:Hp.
    + destruct o as [v|].
      * rewrite (init_ok _ _ _ _ Hp). intros tok [= <-].
        pose proof (primary_endpoint_tokenUrl _ _ Hp) as Hu.
        exists u. split; [exact Hu |]. simpl. by rewrite decide_True.
      * rewrite (init_fail _ _ _ Hp). intros tok; simpl.
        by rewrite configure_token.
    + by rewrite (init_degraded _ _ _ Hp).
  - intros w u o Hw.
    destruct (registerTokenUrl_cases w u o)
      as [(tok0 & Hhit & E) | [(v & _ & Hfresh & E) | (_ & Hfresh & E)]];
      rewrite E; simpl; [done | | done].
    intros tok Htok. destruct (Hw tok Htok) as (u0 & Hu0 & Hg0).
    exists u0. split; [done |].
    apply (JSMap_get_set_fresh _ _ _ _ _ Hfresh). by left.
  - intros w Hw. exact Hw.
Qed.

Lemma primary_token_is_registered_witness :
  ∃ u,
    CloudServices.tokenUrl
      (plugin (lifecycle (Some [CloudServices.CfgTokenUrl (Some (UrlCallback 9))])
                 (FetchOk "tok-1")
                 [OpRegister (UrlCallback 3) (FetchOk "tok-2"); OpDestroy]).1)
    = Some u ∧
    getTokenFor
      (lifecycle (Some [CloudServices.CfgTokenUrl (Some (UrlCallback 9))])
         (FetchOk "tok-1")
         [OpRegister (UrlCallback 3) (FetchOk "tok-2"); OpDestroy]).1 u
    = ((lifecycle (Some [CloudServices.CfgTokenUrl (Some (UrlCallback 9))])
          (FetchOk "tok-1")
          [OpRegister (UrlCallback 3) (FetchOk "tok-2"); OpDestroy]).1,
       Returned 0).
Proof.
  apply (primary_token_is_registered
           (Some [CloudServices.CfgTokenUrl (Some (UrlCallback 9))]) (FetchOk "tok-1")
           [OpRegister (UrlCallback 3) (FetchOk "tok-2"); OpDestroy] 0).
  reflexivity.
Defined.

(** ** Identities, for calls made one after the other *)

(** X21.  For calls that are awaited one after the other, identities are
    compared by value for URL strings and by reference for provider
    functions.  Registering a URL string that is not in the map creates one
    token and issues one request, and a following registration with a string
    equal by value resolves to that same token and leaves the world
    untouched.  Registering two distinct provider functions that are not in
    the map creates two tokens: the calls resolve to two different objects,
    each bound to its own function, and each function is afterwards looked up
    to its own token. *)
Theorem registerTokenUrl_awaited_identity :
  (∀ (w : World) (s1 s2 v : string) (o2 : FetchOutcome),
     String.eqb s1 s2 = true →
     JSMap.get (tokens_of w) (UrlString s1) = None →
     ∃ w1,
       registerTokenUrl w (UrlString s1) (FetchOk v) = (w1, Resolved (length (heap w))) ∧
       heap w1 = heap w ++ [Token.mk (UrlString s1) (Some v) Token.VALID false] ∧
       requests w1 = requests w ++ [UrlString s1] ∧
       registerTokenUrl w1 (UrlString s2) o2 = (w1, Resolved (length (heap w)))) ∧
  (∀ (w : World) (f1 f2 : nat) (v1 v2 : string),
     f1 ≠ f2 →
     JSMap.get (tokens_of w) (UrlCallback f1) = None →
     JSMap.get (tokens_of w) (UrlCallback f2) = None →
     ∃ w1 w2,
       registerTokenUrl w (UrlCallback f1) (FetchOk v1) = (w1, Resolved (length (heap w))) ∧
       registerTokenUrl w1 (UrlCallback f2) (FetchOk v2)
       = (w2, Resolved (S (length (heap w)))) ∧
       length (heap w) ≠ S (length (heap w)) ∧
       heap w2 = heap w ++ [Token.mk (UrlCallback f1) (Some v1) Token.VALID false;
                            Token.mk (UrlCallback f2) (Some v2) Token.VALID false] ∧
       getTokenFor w2 (UrlCallback f1) = (w2, Returned (length (heap w))) ∧
       getTokenFor w2 (UrlCallback f2) = (w2, Returned (S (length (heap w))))).
Proof.
  split.
  - intros w s1 s2 v o2 <-%String.eqb_eq Hfresh.
    eexists. split; [by apply registerTokenUrl_fresh_ok |].
    split; [done |]. split; [done |].
    apply registerTokenUrl_cached; simpl. apply JSMap_get_set_eq.
  - intros w f1 f2 v1 v2 Hne H1 H2.
    assert (UrlCallback f1 ≠ UrlCallback f2) as Hne' by congruence.
    eexists _, _. split; [by apply registerTokenUrl_fresh_ok |].
    rewrite registerTokenUrl_fresh_ok
      by (simpl; by rewrite JSMap_get_set_ne).
    simpl. rewrite length_app, <- app_assoc; simpl.
    rewrite Nat.add_1_r.
    split; [reflexivity |]. split; [lia |]. split; [done |]. split.
    + apply getTokenFor_hit; simpl.
      rewrite JSMap_get_set_ne by congruence. apply JSMap_get_set_eq.
    + apply getTokenFor_hit; simpl. apply JSMap_get_set_eq.
Qed.

Lemma registerTokenUrl_awaited_identity_witness :
  (∃ w1,
     registerTokenUrl initial (UrlString "https://ex/token") (FetchOk "tok-1")
     = (w1, Resolved (length (heap initial))) ∧
     heap w1 = heap initial ++
               [Token.mk (UrlString "https://ex/token") (Some "tok-1") Token.VALID false] ∧
     requests w1 = requests initial ++ [UrlString "https://ex/token"] ∧
     registerTokenUrl w1 (UrlString "https://ex/token") FetchFail
     = (w1, Resolved (length (heap initial)))) ∧
  (∃ w1 w2,
     registerTokenUrl initial (UrlCallback 1) (FetchOk "tok-1")
     = (w1, Resolved (length (heap initial))) ∧
     registerTokenUrl w1 (UrlCallback 2) (FetchOk "tok-2")
     = (w2, Resolved (S (length (heap initial)))) ∧
     length (heap initial) ≠ S (length (heap initial)) ∧
     heap w2 = heap initial ++
               [Token.mk (UrlCallback 1) (Some "tok-1") Token.VALID false;
                Token.mk (UrlCallback 2) (Some "tok-2") Token.VALID false] ∧
     getTokenFor w2 (UrlCallback 1) = (w2, Returned (length (heap initial))) ∧
     getTokenFor w2 (UrlCallback 2) = (w2, Returned (S (length (heap initial))))).
Proof.
  destruct registerTokenUrl_awaited_identity as [Hstr Hfun]. split.
  - apply (Hstr initial "https://ex/token" "https://ex/token" "tok-1" FetchFail).
    + reflexivity.
    + reflexivity.
  - apply (Hfun initial 1 2 "tok-1" "tok-2").
    + discriminate.
    + reflexivity.
    + reflexivity.
Defined.
